(** * Staged key-value store and symlink-cycle detector

    A shallow embedding of [database_solved.py] ([StorageAdapter]) and
    [symlink_solved.py] ([is_circular_symlink]), followed by the properties
    of the two programs.

    Conventions of the embedding.
    - Python [str] values are modelled by [string]; a text stands for the
      bytes [str.encode()] yields.
    - A Python exception is a constructor of [exn]; a call either returns
      ([Ok]) or raises ([Raise]).
    - Methods of [StorageAdapter] mutate the adapter and the file system, so
      they are computations [M A := StorageAdapter -> result A * StorageAdapter]:
      the state that comes back is the state the exception handler of a
      caller would observe.
    - The system is Linux and the library is that of CPython 3.11 and 3.12:
      [json.load] raises [ValueError] on an integer of more than 4300
      digits, a path component of more than 255 bytes and a path of 4096
      bytes or more make a system call fail with [ENAMETOOLONG], and
      [Path.exists()] and [Path.is_symlink()] raise that error again. *)

From stdpp Require Import gmap strings list.

Set Warnings "-register-all,-clear-no-such-hyp".
Open Scope string_scope.
Open Scope list_scope.

(** ** Python exceptions and results *)

Module Py.

Inductive exn : Set :=
| FileNotFoundError
| IsADirectoryError
| NotADirectoryError
| FileExistsError
| OtherOSError
| JSONDecodeError
| UnicodeDecodeError
| ValueError
| KeyError
| TypeError
| AttributeError
| RuntimeError.

(** [isinstance(e, OSError)]: the first five are [OSError] or subclasses. *)
Definition is_OSError (e : exn) : bool :=
  match e with
  | FileNotFoundError | IsADirectoryError | NotADirectoryError
  | FileExistsError | OtherOSError => true
  | _ => false
  end.

Inductive result (A : Type) : Type :=
| Ok (a : A)
| Raise (e : exn).

Arguments Ok {A} a.
Arguments Raise {A} e.

(** A Python [dict] keeps insertion order: assigning to a key that is present
    replaces the value in place, a new key goes to the end. *)
Section Dict.
Context {V : Type}.

Definition dict := list (string * V).

Fixpoint dict_set (k : string) (v : V) (d : dict) : dict :=
  match d with
  | [] => [(k, v)]
  | (k', v') :: d' =>
      if String.eqb k' k then (k, v) :: d' else (k', v') :: dict_set k v d'
  end.

Fixpoint dict_get (k : string) (d : dict) : option V :=
  match d with
  | [] => None
  | (k', v') :: d' => if String.eqb k' k then Some v' else dict_get k d'
  end.

(** [k in d] *)
Definition dict_contains (k : string) (d : dict) : bool :=
  match dict_get k d with Some _ => true | None => false end.

(** [d.pop(k)] for a key that is present *)
Fixpoint dict_pop (k : string) (d : dict) : dict :=
  match d with
  | [] => []
  | (k', v') :: d' => if String.eqb k' k then d' else (k', v') :: dict_pop k d'
  end.

Definition dict_keys (d : dict) : list string := d.*1.
End Dict.

Arguments dict V : clear implicits.

End Py.

Import Py.

(** ** The storage adapter: data *)

Module Database.

(** What [json.load] returns. *)
Inductive json : Type :=
| JNull
| JBool (b : bool)
| JNum (n : Z)
| JStr (s : string)
| JArr (items : list json)
| JObj (members : dict json).

(** [int(text)] raises [ValueError] on more than
    [sys.int_info.default_max_str_digits] decimal digits (Python 3.11 and
    later), and so does [json.load] on such an integer literal. *)
Definition INT_MAX_STR_DIGITS : Z := 4300.

Definition int_fits (n : Z) : bool := (Z.abs n <? 10 ^ INT_MAX_STR_DIGITS)%Z.

Arguments int_fits : simpl never.

(** The values [json.load] can return: every integer in them has at most
    [INT_MAX_STR_DIGITS] digits. *)
Fixpoint loadable (j : json) : bool :=
  match j with
  | JNum n => int_fits n
  | JArr items => forallb loadable items
  | JObj members => forallb (fun kv => let '(_, v) := kv in loadable v) members
  | _ => true
  end.



(** The content of a regular file, as [open(path, 'r')] followed by
    [json.load] sees it: bytes that are not text in the locale's encoding,
    text that is not JSON, or a JSON document.  [json.dumps] of a value is
    the document [Json] of that value: reading back what [json.dumps] wrote
    gives an equal value. *)
Inductive content : Type :=
| Undecodable
| Malformed
| Json (j : json).

(** A name under the storage directory is a regular file or a directory. *)
Inductive entry : Type :=
| EFile (c : content)
| ESubdir.

(** What a path resolves to. *)
Inductive target : Type :=
| TNone
| TFile
| TDir (files : gmap string entry).

(** What the file system holds at the path [_storage_directory]: the thing
    itself, or a symbolic link and what it resolves to ([Real TNone]: nothing
    there; [Symlink TNone]: a dangling link).  The ancestors of the path are
    taken to be directories the process may write to. *)
Inductive node : Type :=
| Real (t : target)
| Symlink (t : target).

Definition resolved (n : node) : target :=
  match n with Real t | Symlink t => t end.

(** A staged mutation.  The source stores the tuples [('update', value)],
    [('delete', None)] and [('clear', None)]. *)
Inductive operation : Type :=
| Update (value : string)
| Delete
| Clear.

Record StorageAdapter : Type := mkAdapter {
  disk : node;                              (* the file system at _storage_directory *)
  _pending_operations : dict operation;
  stdout : list exn                         (* what commit printed *)
}.

(** ** The state-and-exception monad *)

Definition M (A : Type) : Type := StorageAdapter -> result A * StorageAdapter.

Definition ret {A} (a : A) : M A := fun s => (Ok a, s).
Definition raise {A} (e : exn) : M A := fun s => (Raise e, s).
Definition bind {A B} (m : M A) (k : A -> M B) : M B :=
  fun s => match m s with
           | (Ok a, s') => k a s'
           | (Raise e, s') => (Raise e, s')
           end.
(** [try: m except ...: h e] *)
Definition try_except {A} (m : M A) (h : exn -> M A) : M A :=
  fun s => match m s with
           | (Ok a, s') => (Ok a, s')
           | (Raise e, s') => h e s'
           end.

Declare Scope py_scope.
Delimit Scope py_scope with py.
Notation "x <- m ;; k" := (bind m (fun x => k))
  (at level 100, m at next level, right associativity) : py_scope.
Notation "m ;;; k" := (bind m (fun _ => k))
  (at level 100, right associativity) : py_scope.
Open Scope py_scope.

Definition lift {A} (r : result A) : M A := fun s => (r, s).
Definition read_disk {A} (f : node -> A) : M A := fun s => (Ok (f (disk s)), s).
Definition set_disk (n : node) : M unit :=
  fun s => (Ok tt, mkAdapter n (_pending_operations s) (stdout s)).
Definition read_pending : M (dict operation) :=
  fun s => (Ok (_pending_operations s), s).
Definition set_pending (d : dict operation) : M unit :=
  fun s => (Ok tt, mkAdapter (disk s) d (stdout s)).
(** [print(f"Error during commit operation: {e}")] *)
Definition print (e : exn) : M unit :=
  fun s => (Ok tt, mkAdapter (disk s) (_pending_operations s) (stdout s ++ [e])).

(** ** [pathlib] and [shutil] on the storage directory *)

(** [Path.exists()], [is_file()] and [is_dir()] follow symbolic links;
    [is_symlink()] does not. *)
Definition path_exists (n : node) : bool :=
  match resolved n with TNone => false | _ => true end.
Definition path_is_file (n : node) : bool :=
  match resolved n with TFile => true | _ => false end.
Definition path_is_dir (n : node) : bool :=
  match resolved n with TDir _ => true | _ => false end.
Definition path_is_symlink (n : node) : bool :=
  match n with Symlink _ => true | Real _ => false end.

(** [Path.unlink()] removes a file or a link, not a directory. *)
Definition path_unlink (n : node) : result node :=
  match n with
  | Symlink _ | Real TFile => Ok (Real TNone)
  | Real (TDir _) => Raise IsADirectoryError
  | Real TNone => Raise FileNotFoundError
  end.

(** [Path.mkdir(parents=True, exist_ok=True)]: [os.mkdir] fails on any
    existing name, and the error is dropped when the path is a directory
    (through links). *)
Definition path_mkdir (n : node) : result node :=
  match n with
  | Real TNone => Ok (Real (TDir ∅))
  | _ => if path_is_dir n then Ok n else Raise FileExistsError
  end.

(** [shutil.rmtree(path, ignore_errors=True)]: a directory goes with all it
    holds; a link, a regular file and a missing path make [rmtree] fail, and
    the failure is ignored. *)
Definition rmtree_ignore_errors (n : node) : node :=
  match n with
  | Real (TDir _) => Real TNone
  | _ => n
  end.

(** ** Files under the storage directory *)

(** [open(dir / name, 'r')] and reading it all. *)
Definition open_read (name : string) (n : node) : result content :=
  match resolved n with
  | TNone => Raise FileNotFoundError
  | TFile => Raise NotADirectoryError
  | TDir files =>
      match files !! name with
      | None => Raise FileNotFoundError
      | Some ESubdir => Raise IsADirectoryError
      | Some (EFile c) => Ok c
      end
  end.

Definition with_files (n : node) (files : gmap string entry) : node :=
  match n with
  | Real _ => Real (TDir files)
  | Symlink _ => Symlink (TDir files)
  end.

(** [(dir / name).write_text(text)] creates or truncates the file. *)
Definition write_text (name : string) (c : content) (n : node) : result node :=
  match resolved n with
  | TNone => Raise FileNotFoundError
  | TFile => Raise NotADirectoryError
  | TDir files =>
      match files !! name with
      | Some ESubdir => Raise IsADirectoryError
      | _ => Ok (with_files n (<[name := EFile c]> files))
      end
  end.

(** [(dir / name).exists()] *)
Definition entry_exists (name : string) (n : node) : bool :=
  match resolved n with
  | TDir files => bool_decide (is_Some (files !! name))
  | _ => false
  end.

(** [(dir / name).unlink()] *)
Definition entry_unlink (name : string) (n : node) : result node :=
  match resolved n with
  | TNone => Raise FileNotFoundError
  | TFile => Raise NotADirectoryError
  | TDir files =>
      match files !! name with
      | None => Raise FileNotFoundError
      | Some ESubdir => Raise IsADirectoryError
      | Some (EFile _) => Ok (with_files n (delete name files))
      end
  end.

(** A file-system call that changes the storage directory or raises. *)
Definition fs_call (f : node -> result node) : M unit :=
  fun s => match f (disk s) with
           | Ok n => (Ok tt, mkAdapter n (_pending_operations s) (stdout s))
           | Raise e => (Raise e, s)
           end.

(** ** [json] and subscripts *)

Definition json_load (c : content) : result json :=
  match c with
  | Undecodable => Raise UnicodeDecodeError
  | Malformed => Raise JSONDecodeError
  | Json j => if loadable j then Ok j else Raise ValueError
  end.

(** [data[name]]: a [dict] answers or raises [KeyError]; a list or a string
    wants an integer index, the other values have no subscript. *)
Definition subscript (data : json) (name : string) : result json :=
  match data with
  | JObj members =>
      match dict_get name members with
      | Some j => Ok j
      | None => Raise KeyError
      end
  | _ => Raise TypeError
  end.

(** [x.encode()]: only [str] has the method. *)
Definition encode (x : json) : result string :=
  match x with
  | JStr s => Ok s
  | _ => Raise AttributeError
  end.

(** [x == s] for a [str] [s] *)
Definition eq_str (x : json) (s : string) : bool :=
  match x with
  | JStr t => String.eqb t s
  | _ => false
  end.

(** [bool(data)] for what [_load_from_file] returned *)
Definition truthy (x : json) : bool :=
  match x with
  | JNull | JBool false | JStr "" | JArr [] | JObj [] => false
  | JNum n => negb (Z.eqb n 0)
  | _ => true
  end.

Section Adapter.

(** [hashlib.sha256(bytes).hexdigest()] *)
Variable sha256 : string -> string.

(** Returns the name of the key's file under the storage directory. *)
Definition _get_file_path (key : string) : string := sha256 key.

(** Feeding the hasher [key] then [value] hashes their concatenation. *)
Definition _compute_value_hash (key value : json) : result string :=
  match encode key with
  | Raise e => Raise e
  | Ok k =>
      match encode value with
      | Raise e => Raise e
      | Ok v => Ok (sha256 (k +:+ v))
      end
  end.

Definition _load_from_file (file_path : string) : M (option json) :=
  try_except
    (c <- (fun s => (open_read file_path (disk s), s)) ;;
     data <- lift (json_load c) ;;
     k <- lift (subscript data "key") ;;
     v <- lift (subscript data "value") ;;
     expected_hash <- lift (_compute_value_hash k v) ;;
     h <- lift (subscript data "hash") ;;
     if eq_str h expected_hash then ret (Some data) else ret None)
    (fun e =>
       match e with
       | FileNotFoundError | JSONDecodeError | KeyError => ret None
       | _ => raise e
       end).

(** [data['value'] if data else None] *)
Definition value_of (data : option json) : M (option json) :=
  match data with
  | Some d =>
      if truthy d then (v <- lift (subscript d "value") ;; ret (Some v))
      else ret None
  | None => ret None
  end.

Definition get (key : string) : M (option json) :=
  pending <- read_pending ;;
  match dict_get key pending with
  | Some Delete =>
      previous_data <- _load_from_file (_get_file_path key) ;;
      value_of previous_data
  | _ =>
      let file_path := _get_file_path key in
      data <- _load_from_file file_path ;;
      value_of data
  end.

Definition update (key value : string) : M unit :=
  pending <- read_pending ;;
  set_pending (dict_set key (Update value) pending).

Definition delete (key : string) : M unit :=
  pending <- read_pending ;;
  set_pending (dict_set key Delete pending).

Definition clear : M unit :=
  set_pending [] ;;;
  pending <- read_pending ;;
  set_pending (dict_set "__clear__" Clear pending).

(** The record [commit] serialises for an [Update]. *)
Definition record (key value : string) : json :=
  JObj [("key", JStr key);
        ("value", JStr value);
        ("hash", JStr (sha256 (key +:+ value)))].

(** One turn of the loop of [commit], with its [try]/[except]. *)
Definition commit_step (key : string) (op : operation) : M unit :=
  let file_path := _get_file_path key in
  try_except
    (match op with
     | Update value =>
         let data := record key value in
         fs_call (write_text file_path (Json data))
     | Delete =>
         present <- read_disk (entry_exists file_path) ;;
         if present then fs_call (entry_unlink file_path) else ret tt
     | Clear => ret tt
     end)
    (fun e => if is_OSError e then (print e ;;; raise e) else raise e).

Fixpoint commit_loop (items : dict operation) : M unit :=
  match items with
  | [] => ret tt
  | (key, op) :: rest => commit_step key op ;;; commit_loop rest
  end.

(** Lines 72-75 of [commit]: the staged wipe. *)
Definition commit_wipe : M unit :=
  pending <- read_pending ;;
  if dict_contains "__clear__" pending then
    (d <- read_disk rmtree_ignore_errors ;; set_disk d) ;;;
    fs_call path_mkdir ;;;
    pending <- read_pending ;;
    set_pending (dict_pop "__clear__" pending)
  else ret tt.

(** Lines 77-84 of [commit]: the storage directory is put in place. *)
Definition commit_directory : M unit :=
  present <- read_disk path_exists ;;
  (if present then
     is_file <- read_disk path_is_file ;;
     if is_file then fs_call path_unlink
     else
       is_symlink <- read_disk path_is_symlink ;;
       if is_symlink then fs_call path_unlink else ret tt
   else ret tt) ;;;
  present <- read_disk path_exists ;;
  if negb present then fs_call path_mkdir else ret tt.

Definition commit : M unit :=
  commit_wipe ;;;
  commit_directory ;;;
  pending <- read_pending ;;
  commit_loop pending ;;;
  set_pending [].

Definition rollback : M unit := set_pending [].

Definition __getitem__ (key : string) : M (option json) := get key.
Definition __setitem__ (key value : string) : M unit := update key value.
Definition __delitem__ (key : string) : M unit := delete key.

Definition __enter__ : M unit :=
  is_symlink <- read_disk path_is_symlink ;;
  is_file <- read_disk path_is_file ;;
  (if is_symlink || is_file then
     try_except (fs_call path_unlink) (fun _ => raise RuntimeError)
   else ret tt) ;;;
  try_except (fs_call path_mkdir)
    (fun e =>
       match e with
       | FileExistsError =>
           is_dir <- read_disk path_is_dir ;;
           if negb is_dir then raise RuntimeError else ret tt
       | _ => raise e
       end).



End Adapter.

(** A call that stages or discards, and a sequence of such calls. *)
Inductive call : Type :=
| CallUpdate (key value : string)
| CallDelete (key : string)
| CallClear
| CallRollback.

Definition run_call (c : call) : M unit :=
  match c with
  | CallUpdate key value => update key value
  | CallDelete key => delete key
  | CallClear => clear
  | CallRollback => rollback
  end.

Fixpoint run_calls (cs : list call) : M unit :=
  match cs with
  | [] => ret tt
  | c :: cs' => run_call c ;;; run_calls cs'
  end.

(** An injective stand-in for [sha256], to run the adapter on examples.
    The theorems below hold for every digest function. *)
Definition sample_digest (data : string) : string := "#" +:+ data.

(** The state a computation leaves and what it returns. *)
Definition state_after {A} (m : M A) (s : StorageAdapter) : StorageAdapter := (m s).2.
Definition outcome {A} (m : M A) (s : StorageAdapter) : result A := (m s).1.

(** *** Notions the statements use *)


(** The storage path can be wiped and made again: it is free, a directory,
    or a link to a directory. *)
Definition wipeable (n : node) : Prop :=
  n = Real TNone \/ path_is_dir n = true.

(** What lines 77-84 of [commit] make of the storage path. *)
Definition in_place (n : node) : result node :=
  match n with
  | Real (TDir files) => Ok (Real (TDir files))
  | Symlink TNone => Raise FileExistsError
  | _ => Ok (Real (TDir ∅))
  end.

(** What the body of the [try] in the loop of [commit] does to the storage
    directory for one staged operation. *)
Definition step_disk (sha256 : string -> string) (key : string)
    (op : operation) (n : node) : result node :=
  match op with
  | Update value => write_text (sha256 key) (Json (record sha256 key value)) n
  | Delete =>
      if entry_exists (sha256 key) n then entry_unlink (sha256 key) n else Ok n
  | Clear => Ok n
  end.

(** The directory the loop reaches, and the exception that stopped it. *)
Fixpoint loop_disk (sha256 : string -> string) (items : dict operation)
    (n : node) : node * option exn :=
  match items with
  | [] => (n, None)
  | (key, op) :: rest =>
      match step_disk sha256 key op n with
      | Ok n' => loop_disk sha256 rest n'
      | Raise e => (n, Some e)
      end
  end.

(** The store holds the committed value [value] for [key]: the file of the
    key is the record a commit of [Update value] writes. *)
Definition committed (sha256 : string -> string) (n : node)
    (key value : string) : Prop :=
  exists files,
    resolved n = TDir files /\
    files !! sha256 key = Some (EFile (Json (record sha256 key value))).

(** The store has no file for [key]. *)
Definition vacant (sha256 : string -> string) (n : node) (key : string) : Prop :=
  open_read (sha256 key) n = Raise FileNotFoundError.

(** No name in the directory is taken by a subdirectory. *)
Definition healthy (files : gmap string entry) : Prop :=
  forall name, files !! name <> Some ESubdir.

(** What the staged entries, applied in order, leave under the name [name]:
    [Some (Some e)] for the file the last [Update] on that name writes,
    [Some None] when the last operation on it is a [Delete], [None] when no
    entry touches the name. *)
Fixpoint last_effect (sha256 : string -> string) (name : string)
    (items : dict operation) : option (option entry) :=
  match items with
  | [] => None
  | (key, op) :: rest =>
      match last_effect sha256 name rest with
      | Some r => Some r
      | None =>
          if String.eqb (sha256 key) name then
            match op with
            | Update value => Some (Some (EFile (Json (record sha256 key value))))
            | Delete => Some None
            | Clear => None
            end
          else None
      end
  end.

(** The storage directory with the file of [key] holding [c]. *)
Definition with_entry (sha256 : string -> string) (key : string) (c : content)
    (files : gmap string entry) (pending : dict operation) (out : list exn)
    : StorageAdapter :=
  mkAdapter (Real (TDir (<[sha256 key := EFile c]> files))) pending out.

End Database.

(** ** The cycle detector: paths and the file system *)

Module Symlink.

(** A [pathlib.PurePosixPath]: whether it starts at the root, and its
    components.  [pathlib] drops empty components and ["."] when it parses a
    path and keeps [".."]: two paths are equal when they are written alike. *)
Record path : Type := mkPath { absolute : bool; parts : list string }.

#[global] Instance path_eq_dec : EqDecision path.
Proof. solve_decision. Defined.

#[global] Instance path_countable : Countable path.
Proof.
  refine (inj_countable' (fun p => (absolute p, parts p))
                         (fun x => mkPath x.1 x.2) _).
  by intros [].
Defined.

Definition is_absolute (p : path) : bool := absolute p.

(** [p.parent]: the root and the empty relative path are their own parent. *)
Definition parent (p : path) : path :=
  mkPath (absolute p) (removelast (parts p)).

(** [p / q] *)
Definition joinpath (p q : path) : path :=
  if absolute q then q else mkPath (absolute p) (parts p ++ parts q).

(** The length of [str(p)], the text a system call receives: the components
    with a ["/"] between them and one in front of an absolute path; ["/"]
    and ["."] for the paths without components. *)
Definition path_length (p : path) : nat :=
  match parts p with
  | [] => 1
  | _ :: _ =>
      sum_list (map (fun c => S (String.length c)) (parts p))
      - (if absolute p then 0 else 1)
  end.

(** A file-system object: a regular file, a directory with its entries, or
    a symbolic link with the target it was created with. *)
Inductive fnode : Type :=
| File
| Dir (children : dict fnode)
| Link (target : path).

(** The file system: the entries of the root directory, and the working
    directory as the names that lead to it from the root. *)
Record filesystem : Type := mkFs { root : dict fnode; cwd : list string }.

(** The limits of Linux: the kernel follows at most [MAXSYMLINKS] links while
    it resolves one path and then fails with [ELOOP]; a component of more
    than [NAME_MAX] bytes and a path of [PATH_MAX] bytes or more (the
    terminating zero counts) fail with [ENAMETOOLONG]. *)
Definition MAXSYMLINKS : nat := 40.
Definition NAME_MAX : nat := 255.
Definition PATH_MAX : nat := 4096.

(** What a [stat] call comes back with: the object, one of the errors
    [ENOENT], [ENOTDIR] and [ELOOP] ([Missing]), which [pathlib] treats
    alike, or [ENAMETOOLONG] ([TooLong]), which it does not. *)
Inductive found : Type :=
| Found (n : fnode)
| Missing
| TooLong.

(** Path resolution.  [stack] holds the entries of the directory reached so
    far and of its ancestors up to the root; [comps] is what is left of the
    path.  A link met on the way is replaced by its target; the last
    component is followed only when [follow] is set ([stat] against
    [lstat]). *)
Fixpoint resolve (budget : nat) (top : dict fnode) (follow : bool)
    (stack : list (dict fnode)) (comps : list string) : found :=
  (fix go (stack : list (dict fnode)) (comps : list string) : found :=
     match comps with
     | [] =>
         match stack with
         | here :: _ => Found (Dir here)
         | [] => Missing
         end
     | c :: rest =>
         match stack with
         | [] => Missing
         | here :: up =>
             if String.eqb c ".." then
               match up with
               | [] => go stack rest
               | _ :: _ => go up rest
               end
             else if (NAME_MAX <? String.length c)%nat then TooLong
             else
               match dict_get c here with
               | None => Missing
               | Some File =>
                   match rest with [] => Found File | _ :: _ => Missing end
               | Some (Dir children) => go (children :: stack) rest
               | Some (Link t) =>
                   match rest, follow with
                   | [], false => Found (Link t)
                   | _, _ =>
                       match budget with
                       | O => Missing
                       | S budget' =>
                           resolve budget' top follow
                             (if absolute t then [top] else stack)
                             (parts t ++ rest)
                       end
                   end
               end
         end
     end) stack comps.

(** The directory stack of the working directory. *)
Fixpoint enter (stack : list (dict fnode)) (names : list string)
    : option (list (dict fnode)) :=
  match names with
  | [] => Some stack
  | c :: rest =>
      match stack with
      | here :: _ =>
          match dict_get c here with
          | Some (Dir children) => enter (children :: stack) rest
          | _ => None
          end
      | [] => None
      end
  end.

Definition start (fs : filesystem) (p : path) : list (dict fnode) :=
  if absolute p then [root fs]
  else default [] (enter [root fs] (cwd fs)).

(** The system call on [str(p)] with [budget] links to follow: the length of
    the text is checked before the path is walked. *)
Definition os_stat (budget : nat) (follow : bool) (fs : filesystem) (p : path)
    : found :=
  if (PATH_MAX <=? path_length p)%nat then TooLong
  else resolve budget (root fs) follow (start fs p) (parts p).

(** [os.stat] and [os.lstat], as far as the kind of the object goes. *)
Definition stat (fs : filesystem) (p : path) : found :=
  os_stat MAXSYMLINKS true fs p.
Definition lstat (fs : filesystem) (p : path) : found :=
  os_stat MAXSYMLINKS false fs p.

(** [Path.exists()]: [False] on [ENOENT], [ENOTDIR] and [ELOOP]; any other
    [OSError] of [stat] is raised again ([pathlib] up to Python 3.12). *)
Definition exists_ (fs : filesystem) (p : path) : result bool :=
  match stat fs p with
  | Found _ => Ok true
  | Missing => Ok false
  | TooLong => Raise OtherOSError
  end.

(** [Path.is_symlink()], with the same treatment of the errors of [lstat]. *)
Definition is_symlink (fs : filesystem) (p : path) : result bool :=
  match lstat fs p with
  | Found (Link _) => Ok true
  | Found _ => Ok false
  | Missing => Ok false
  | TooLong => Raise OtherOSError
  end.

(** [Path.readlink()]: [os.readlink] raises an [OSError] on what is not a
    link, on what is not there and on a path that is too long.  For
    [Missing] the exception stands for those of [ENOENT], [ENOTDIR] and
    [ELOOP], all of them [OSError]s and none a [RuntimeError]. *)
Definition readlink (fs : filesystem) (p : path) : result path :=
  match lstat fs p with
  | Found (Link t) => Ok t
  | Found _ => Raise OtherOSError
  | Missing => Raise FileNotFoundError
  | TooLong => Raise OtherOSError
  end.

(** [not p.exists() and not p.is_symlink()]: [is_symlink] is called only
    when [exists] has answered [False]. *)
Definition neither (fs : filesystem) (p : path) : result bool :=
  match exists_ fs p with
  | Raise e => Raise e
  | Ok true => Ok false
  | Ok false =>
      match is_symlink fs p with
      | Raise e => Raise e
      | Ok b => Ok (negb b)
      end
  end.

(** The join of the loop: the target itself when it is absolute, else the
    target appended to the parent of the link. *)
Definition target_path_of (current_path target : path) : path :=
  if is_absolute target then target
  else joinpath (parent current_path) target.

(** The [while True] loop.  [fuel] bounds the number of turns; [None] means
    the loop is still running when the fuel is spent. *)
Fixpoint walk (fuel : nat) (fs : filesystem) (visited : gset path)
    (current_path : path) : option (result bool) :=
  match fuel with
  | O => None
  | S fuel' =>
      match readlink fs current_path with
      | Raise RuntimeError => Some (Ok false)
      | Raise e => Some (Raise e)
      | Ok target =>
          let target_path := target_path_of current_path target in
          if decide (target_path ∈ visited) then Some (Ok true)
          else
            let visited := visited ∪ {[target_path]} in
            match neither fs target_path with
            | Raise e => Some (Raise e)
            | Ok true => Some (Ok false)
            | Ok false =>
                match is_symlink fs target_path with
                | Raise e => Some (Raise e)
                | Ok false => Some (Ok false)
                | Ok true => walk fuel' fs visited target_path
                end
            end
      end
  end.

Definition is_circular_symlink (fuel : nat) (fs : filesystem) (symlink : path)
    : option (result bool) :=
  match neither fs symlink with
  | Raise e => Some (Raise e)
  | Ok true => Some (Raise FileNotFoundError)
  | Ok false =>
      match is_symlink fs symlink with
      | Raise e => Some (Raise e)
      | Ok false => Some (Raise RuntimeError)
      | Ok true => walk fuel fs ∅ symlink
      end
  end.

(** *** Notions the statements use *)

(** Where a link leads: its target when that is absolute, else the path
    written as the directory part of the link followed by the target. *)
Definition next (fs : filesystem) (p : path) : option path :=
  match readlink fs p with
  | Ok target =>
      Some (if absolute target then target
            else mkPath (absolute p) (removelast (parts p) ++ parts target))
  | Raise _ => None
  end.

(** The path reached from [p] by reading [n] links in a row. *)
Fixpoint follow_links (fs : filesystem) (n : nat) (p : path) : option path :=
  match n with
  | O => Some p
  | S n' =>
      match next fs p with
      | Some q => follow_links fs n' q
      | None => None
      end
  end.

(** The links from [p] can be read for ever. *)
Definition endless (fs : filesystem) (p : path) : Prop :=
  forall k, is_Some (follow_links fs k p).

(** The kernel walks the components [comps] from the directory stack
    [stack], all of them directories or links that lead to directories,
    follows [j] links on the way and arrives with the stack [stack']. *)
Inductive walks (top : dict fnode)
    : list (dict fnode) -> list string -> nat -> list (dict fnode) -> Prop :=
| walks_nil stack : walks top stack [] 0 stack
| walks_up here up rest j stack' :
    walks top (match up with [] => here :: up | _ :: _ => up end) rest j stack' ->
    walks top (here :: up) (".." :: rest) j stack'
| walks_dir here up c children rest j stack' :
    String.eqb c ".." = false ->
    (NAME_MAX <? String.length c)%nat = false ->
    dict_get c here = Some (Dir children) ->
    walks top (children :: here :: up) rest j stack' ->
    walks top (here :: up) (c :: rest) j stack'
| walks_link here up c t rest j stack' :
    String.eqb c ".." = false ->
    (NAME_MAX <? String.length c)%nat = false ->
    dict_get c here = Some (Link t) ->
    walks top (if absolute t then [top] else here :: up) (parts t ++ rest)
      j stack' ->
    walks top (here :: up) (c :: rest) (S j) stack'.

(** *** Example file systems *)

Definition abs (l : list string) : path := mkPath true l.
Definition rel (l : list string) : path := mkPath false l.

(** [/d/a -> /d/b], [/d/b -> /d/a] *)
Definition fs_mutual : filesystem :=
  mkFs [("d", Dir [("a", Link (abs ["d"; "b"]));
                   ("b", Link (abs ["d"; "a"]))])] [].


(** [/d/a -> b], [/d/b -> f], [/d/f] a regular file, [/d/c -> gone] *)
Definition fs_chain : filesystem :=
  mkFs [("d", Dir [("a", Link (rel ["b"]));
                   ("b", Link (rel ["f"]));
                   ("f", File);
                   ("c", Link (rel ["gone"]))])] [].

(** [/d/t -> a], [/d/a -> b], [/d/b -> c], [/d/c -> a]: a ring of three
    links and a link that leads into it. *)
Definition fs_ring : filesystem :=
  mkFs [("d", Dir [("t", Link (rel ["a"]));
                   ("a", Link (rel ["b"]));
                   ("b", Link (rel ["c"]));
                   ("c", Link (rel ["a"]))])] [].

(** A directory [/d/x] and one link [/d/a -> x/../a], which points back at
    itself. *)
Definition fs_dotdot : filesystem :=
  mkFs [("d", Dir [("x", Dir []);
                   ("a", Link (rel ["x"; ".."; "a"]))])] [].

(** [/d/x/../x/../ ... /a] with [n] times [x/..]: the paths the loop goes
    through on [fs_dotdot]. *)
Fixpoint detours (n : nat) : list string :=
  match n with
  | O => []
  | S n' => detours n' ++ ["x"; ".."]
  end.

Definition dotdot_path (n : nat) : path := abs ("d" :: detours n ++ ["a"]).

(** A name of [n] letters. *)
Fixpoint long_name (n : nat) : string :=
  match n with
  | O => ""
  | S n' => "n" +:+ long_name n'
  end.

(** [/d/a -> <a name of 300 letters>] *)
Definition fs_long : filesystem :=
  mkFs [("d", Dir [("a", Link (rel [long_name 300]))])] [].

End Symlink.

(** * Properties of the storage adapter *)

Module DatabaseSpec.
Import Database.

Ltac destruct_node n :=
  let files := fresh "files" in
  destruct n as [[| |files]|[| |files]].

(** ** Dictionaries *)

Section DictFacts.
Context {V : Type}.
Implicit Types (d : dict V) (k : string) (x : V).

Lemma dict_get_None k d : dict_get k d = None <-> k ∉ dict_keys d.
Proof.
  induction d as [|[k' x'] d IH]; simpl.
  - split; [intros _; apply not_elem_of_nil|done].
  - rewrite not_elem_of_cons.
    destruct (String.eqb_spec k' k) as [->|Hne].
    + split; [done|]. by intros [? _].
    + rewrite IH. split; [by split|by intros [_ ?]].
Qed.

Lemma dict_get_set_eq k x d : dict_get k (dict_set k x d) = Some x.
Proof.
  induction d as [|[k' x'] d IH]; simpl.
  - by rewrite String.eqb_refl.
  - destruct (String.eqb_spec k' k) as [->|Hne]; simpl.
    + by rewrite String.eqb_refl.
    + by destruct (String.eqb_spec k' k).
Qed.

Lemma dict_keys_set k x d k' :
  k' ∈ dict_keys (dict_set k x d) <-> k' = k \/ k' ∈ dict_keys d.
Proof.
  induction d as [|[k1 x1] d IH]; simpl.
  - rewrite list_elem_of_singleton. split; [auto|].
    intros [?|?%elem_of_nil]; done.
  - destruct (String.eqb_spec k1 k) as [->|Hne]; simpl;
      rewrite !elem_of_cons; [naive_solver|]. rewrite IH. naive_solver.
Qed.

Lemma dict_set_NoDup k x d :
  NoDup (dict_keys d) -> NoDup (dict_keys (dict_set k x d)).
Proof.
  induction d as [|[k1 x1] d IH]; simpl.
  - intros _. apply NoDup_singleton.
  - rewrite NoDup_cons. intros [Hk1 Hd].
    destruct (String.eqb_spec k1 k) as [->|Hne]; simpl.
    + by apply NoDup_cons.
    + apply NoDup_cons. split; [|auto].
      rewrite dict_keys_set. naive_solver.
Qed.

Lemma dict_keys_pop k d k' :
  k' ∈ dict_keys (dict_pop k d) -> k' ∈ dict_keys d.
Proof.
  induction d as [|[k1 x1] d IH]; simpl; [done|].
  destruct (String.eqb_spec k1 k) as [->|Hne]; simpl;
    rewrite !elem_of_cons; naive_solver.
Qed.

Lemma dict_pop_NoDup k d :
  NoDup (dict_keys d) -> NoDup (dict_keys (dict_pop k d)).
Proof.
  induction d as [|[k1 x1] d IH]; simpl; [done|].
  rewrite NoDup_cons. intros [Hk1 Hd].
  destruct (String.eqb_spec k1 k) as [->|Hne]; simpl; [done|].
  apply NoDup_cons. split; [|auto]. intros ?%dict_keys_pop. done.
Qed.

Lemma dict_get_pop_ne k k' d :
  k <> k' -> dict_get k' (dict_pop k d) = dict_get k' d.
Proof.
  intros Hne. induction d as [|[k1 x1] d IH]; simpl; [done|].
  destruct (String.eqb_spec k1 k) as [->|Hne1]; simpl.
  - by destruct (String.eqb_spec k k').
  - by rewrite IH.
Qed.
End DictFacts.

Lemma run_call_spec c s :
  exists pending,
    run_call c s = (Ok tt, mkAdapter (disk s) pending (stdout s)).
Proof. destruct c; eexists; reflexivity. Qed.

Lemma run_calls_spec cs : forall s,
  exists pending,
    run_calls cs s = (Ok tt, mkAdapter (disk s) pending (stdout s)).
Proof.
  induction cs as [|c cs IH]; intros s.
  - exists (_pending_operations s). by destruct s.
  - destruct (run_call_spec c s) as (p1 & H1).
    destruct (IH (mkAdapter (disk s) p1 (stdout s))) as (p2 & H2).
    exists p2. simpl. unfold bind. by rewrite H1, H2.
Qed.


Lemma bind_ok {A B} (m : M A) (k : A -> M B) s a s' :
  m s = (Ok a, s') -> bind m k s = k a s'.
Proof. unfold bind. by intros ->. Qed.

Lemma bind_raise {A B} (m : M A) (k : A -> M B) s e s' :
  m s = (Raise e, s') -> bind m k s = (Raise e, s').
Proof. unfold bind. by intros ->. Qed.

Lemma commit_wipe_skip n pending out :
  dict_contains "__clear__" pending = false ->
  commit_wipe (mkAdapter n pending out) = (Ok tt, mkAdapter n pending out).
Proof. intros H. unfold commit_wipe, bind, read_pending. simpl. by rewrite H. Qed.

Lemma commit_wipe_marker n pending out :
  dict_contains "__clear__" pending = true ->
  commit_wipe (mkAdapter n pending out) =
  match path_mkdir (rmtree_ignore_errors n) with
  | Ok n' => (Ok tt, mkAdapter n' (dict_pop "__clear__" pending) out)
  | Raise e => (Raise e, mkAdapter (rmtree_ignore_errors n) pending out)
  end.
Proof.
  intros H. unfold commit_wipe, bind, read_pending. simpl. rewrite H.
  unfold fs_call. simpl. by destruct (path_mkdir _).
Qed.

Lemma commit_directory_spec n pending out :
  commit_directory (mkAdapter n pending out) =
  match in_place n with
  | Ok n' => (Ok tt, mkAdapter n' pending out)
  | Raise e => (Raise e, mkAdapter n pending out)
  end.
Proof. by destruct_node n. Qed.

Lemma wipe_in_place n :
  wipeable n ->
  exists n', path_mkdir (rmtree_ignore_errors n) = Ok n' /\
             in_place n' = Ok (Real (TDir ∅)).
Proof.
  intros [-> | H]; [by eexists|].
  destruct_node n; try discriminate; by eexists.
Qed.




Section Commit.
Variable sha256 : string -> string.

(** [get] reads the file of the key whatever is staged. *)
Lemma get_unfold key s :
  get sha256 key s =
  (data <- _load_from_file sha256 (sha256 key) ;; value_of data) s.
Proof.
  unfold get at 1. unfold bind at 1, read_pending.
  by destruct (dict_get key _) as [[]|].
Qed.

Lemma load_missing name pending out :
  _load_from_file sha256 name (mkAdapter (Real (TDir ∅)) pending out) =
  (Ok None, mkAdapter (Real (TDir ∅)) pending out).
Proof.
  unfold _load_from_file, try_except, bind, open_read. simpl.
  by rewrite lookup_empty.
Qed.

Lemma get_empty key pending out :
  get sha256 key (mkAdapter (Real (TDir ∅)) pending out) =
  (Ok None, mkAdapter (Real (TDir ∅)) pending out).
Proof. rewrite get_unfold. by erewrite bind_ok by apply load_missing. Qed.

(** [_load_from_file] and [get] read the storage directory and nothing
    else, and leave the adapter as it is. *)
Lemma load_frame name n :
  exists r, forall pending out,
    _load_from_file sha256 name (mkAdapter n pending out) =
    (r, mkAdapter n pending out).
Proof.
  unfold _load_from_file, try_except, bind, lift, ret, raise. simpl.
  destruct (open_read name n) as [c|e]; [|by destruct e; eexists].
  destruct (json_load c) as [data|e]; [|by destruct e; eexists].
  destruct (subscript data "key") as [k|e]; [|by destruct e; eexists].
  destruct (subscript data "value") as [v|e]; [|by destruct e; eexists].
  destruct (_compute_value_hash sha256 k v) as [h'|e];
    [|by destruct e; eexists].
  destruct (subscript data "hash") as [h|e]; [|by destruct e; eexists].
  destruct (eq_str h h'); by eexists.
Qed.

Lemma value_of_frame data :
  exists r, forall s, value_of data s = (r, s).
Proof.
  destruct data as [d|]; [|by eexists]. simpl.
  destruct (truthy d); [|by eexists].
  unfold bind, lift, ret. destruct (subscript d "value"); by eexists.
Qed.

Lemma get_frame key n :
  exists r, forall pending out,
    get sha256 key (mkAdapter n pending out) = (r, mkAdapter n pending out).
Proof.
  destruct (load_frame (sha256 key) n) as (r1 & H1).
  destruct r1 as [data|e].
  - destruct (value_of_frame data) as (r2 & H2). exists r2. intros.
    rewrite get_unfold. erewrite bind_ok by apply H1. apply H2.
  - exists (Raise e). intros. rewrite get_unfold.
    by erewrite bind_raise by apply H1.
Qed.

(** The entry of a key read back: the record that [commit] writes passes
    the hash check. *)
Lemma get_record key value n files pending out :
  resolved n = TDir files ->
  files !! sha256 key = Some (EFile (Json (record sha256 key value))) ->
  get sha256 key (mkAdapter n pending out) =
  (Ok (Some (JStr value)), mkAdapter n pending out).
Proof.
  intros Hn Hf. rewrite get_unfold.
  unfold _load_from_file, try_except, bind, lift, ret, open_read. simpl.
  rewrite Hn, Hf. simpl. by rewrite String.eqb_refl.
Qed.

Lemma get_vacant key n pending out :
  open_read (sha256 key) n = Raise FileNotFoundError ->
  get sha256 key (mkAdapter n pending out) = (Ok None, mkAdapter n pending out).
Proof.
  intros Hn. rewrite get_unfold.
  unfold _load_from_file, try_except, bind, lift, ret. simpl. by rewrite Hn.
Qed.

(** *** The loop of [commit] *)

Lemma step_disk_OSError key op n e :
  step_disk sha256 key op n = Raise e -> is_OSError e = true.
Proof.
  destruct op as [value| |]; simpl; [| |done].
  - unfold write_text. destruct (resolved n) as [| |files]; try by intros [= <-].
    destruct (files !! _) as [[]|]; by intros [= <-] || done.
  - destruct (entry_exists _ _); [|done].
    unfold entry_unlink. destruct (resolved n) as [| |files]; try by intros [= <-].
    destruct (files !! _) as [[]|]; by intros [= <-] || done.
Qed.

Lemma commit_step_spec key op n pending out :
  commit_step sha256 key op (mkAdapter n pending out) =
  match step_disk sha256 key op n with
  | Ok n' => (Ok tt, mkAdapter n' pending out)
  | Raise e => (Raise e, mkAdapter n pending (out ++ [e]))
  end.
Proof.
  pose proof (step_disk_OSError key op n) as Hos.
  unfold commit_step, try_except, _get_file_path.
  destruct op as [value| |]; simpl in *; [| |done].
  - unfold fs_call. simpl. destruct (write_text _ _ n) as [n'|e]; [done|].
    by rewrite (Hos e).
  - unfold bind, read_disk, fs_call. simpl.
    destruct (entry_exists _ n); [|done]. simpl.
    destruct (entry_unlink _ n) as [n'|e]; [done|]. by rewrite (Hos e).
Qed.

Lemma commit_loop_spec items : forall n pending out,
  commit_loop sha256 items (mkAdapter n pending out) =
  match loop_disk sha256 items n with
  | (n', None) => (Ok tt, mkAdapter n' pending out)
  | (n', Some e) => (Raise e, mkAdapter n' pending (out ++ [e]))
  end.
Proof.
  induction items as [|[key op] items IH]; intros n pending out; [done|].
  simpl. unfold bind. rewrite commit_step_spec.
  destruct (step_disk sha256 key op n) as [n'|e]; [apply IH|done].
Qed.

Lemma loop_disk_app items1 items2 n :
  loop_disk sha256 (items1 ++ items2) n =
  match loop_disk sha256 items1 n with
  | (n', None) => loop_disk sha256 items2 n'
  | (n', Some e) => (n', Some e)
  end.
Proof.
  revert n. induction items1 as [|[key op] items1 IH]; intros n; [done|].
  simpl. destruct (step_disk sha256 key op n); [apply IH|done].
Qed.

(** What comes before the loop prints nothing. *)
Lemma before_loop_spec s r s0 :
  (commit_wipe ;;; commit_directory) s = (r, s0) -> stdout s0 = stdout s.
Proof.
  destruct s as [n pending out]. unfold bind at 1.
  destruct (dict_contains "__clear__" pending) eqn:Hc.
  - rewrite commit_wipe_marker by done.
    destruct (path_mkdir _) as [n'|e]; [|by intros [= _ <-]].
    rewrite commit_directory_spec.
    destruct (in_place n'); by intros [= _ <-].
  - rewrite commit_wipe_skip by done. rewrite commit_directory_spec.
    destruct (in_place n); by intros [= _ <-].
Qed.

Lemma commit_unfold s :
  commit sha256 s =
  match (commit_wipe ;;; commit_directory) s with
  | (Ok _, s0) =>
      match commit_loop sha256 (_pending_operations s0) s0 with
      | (Ok _, s1) => (Ok tt, mkAdapter (disk s1) [] (stdout s1))
      | (Raise e, s1) => (Raise e, s1)
      end
  | (Raise e, s0) => (Raise e, s0)
  end.
Proof.
  unfold commit, bind. destruct (commit_wipe s) as [[[]|e] s']; [|done].
  destruct (commit_directory s') as [[[]|e] s0]; [|done].
  unfold read_pending.
  by destruct (commit_loop sha256 _ s0) as [[[]|e] s1].
Qed.

Lemma step_disk_dir key op files n' :
  step_disk sha256 key op (Real (TDir files)) = Ok n' ->
  exists files',
    n' = Real (TDir files') /\
    (forall name, name <> sha256 key -> files' !! name = files !! name) /\
    files' !! sha256 key =
      match op with
      | Update value => Some (EFile (Json (record sha256 key value)))
      | Delete => None
      | Clear => files !! sha256 key
      end.
Proof.
  destruct op as [value| |]; simpl.
  - unfold write_text. simpl.
    destruct (files !! sha256 key) as [[]|] eqn:Hf; intros [= <-];
      (eexists; split; [done|]; split;
       [by intros; apply lookup_insert_ne | by apply lookup_insert_eq]).
  - unfold entry_exists, entry_unlink. simpl.
    destruct (files !! sha256 key) as [[]|] eqn:Hf; simpl; intros [= <-].
    + eexists; split; [done|]; split;
        [by intros; apply lookup_delete_ne | by apply lookup_delete_eq].
    + by exists files.
  - intros [= <-]. by exists files.
Qed.

Lemma loop_disk_dir items : forall files n',
  loop_disk sha256 items (Real (TDir files)) = (n', None) ->
  exists files', n' = Real (TDir files').
Proof.
  induction items as [|[key op] items IH]; intros files n'; simpl.
  - intros [= <-]. eauto.
  - destruct (step_disk _ _ _ _) as [n1|] eqn:Hs; [|done].
    apply step_disk_dir in Hs as (files1 & -> & _). apply IH.
Qed.

Lemma in_place_dir n n' :
  in_place n = Ok n' -> exists files, n' = Real (TDir files).
Proof. destruct_node n; simpl; intros [= <-]; eauto. Qed.

(** When what comes before the loop returns, the storage path is a real
    directory, and the marker is the only staged entry that went. *)
Lemma before_loop_ok s s0 :
  (commit_wipe ;;; commit_directory) s = (Ok tt, s0) ->
  exists files,
    s0 = mkAdapter (Real (TDir files))
           (if dict_contains "__clear__" (_pending_operations s)
            then dict_pop "__clear__" (_pending_operations s)
            else _pending_operations s)
           (stdout s).
Proof.
  destruct s as [n pending out]. unfold bind at 1. simpl.
  destruct (dict_contains "__clear__" pending) eqn:Hc.
  - rewrite commit_wipe_marker by done.
    destruct (path_mkdir _) as [n'|e]; [|done].
    rewrite commit_directory_spec.
    destruct (in_place n') as [n''|] eqn:Hp; [|done].
    apply in_place_dir in Hp as (files & ->). intros [= <-]. eauto.
  - rewrite commit_wipe_skip by done. rewrite commit_directory_spec.
    destruct (in_place n) as [n''|] eqn:Hp; [|done].
    apply in_place_dir in Hp as (files & ->). intros [= <-]. eauto.
Qed.


Lemma commit_idle files out :
  commit sha256 (mkAdapter (Real (TDir files)) [] out) =
  (Ok tt, mkAdapter (Real (TDir files)) [] out).
Proof. reflexivity. Qed.

(** *** What the loop leaves in the file of one key *)

Lemma loop_disk_untouched name items : forall files files',
  loop_disk sha256 items (Real (TDir files)) = (Real (TDir files'), None) ->
  (forall k', k' ∈ dict_keys items -> sha256 k' <> name) ->
  files' !! name = files !! name.
Proof.
  induction items as [|[key op] items IH]; intros files files'; simpl.
  - by intros [= <-].
  - destruct (step_disk _ _ _ _) as [n1|] eqn:Hs; [|done].
    apply step_disk_dir in Hs as (files1 & -> & Hother & _).
    intros Hl Hk. rewrite (IH _ _ Hl).
    + apply Hother. apply not_eq_sym, Hk. by left.
    + intros k' Hk'. apply Hk. by right.
Qed.

Lemma loop_disk_lookup k items : forall files files',
  loop_disk sha256 items (Real (TDir files)) = (Real (TDir files'), None) ->
  NoDup (dict_keys items) ->
  (forall k', k' ∈ dict_keys items -> sha256 k' = sha256 k -> k' = k) ->
  files' !! sha256 k =
    match dict_get k items with
    | Some (Update value) => Some (EFile (Json (record sha256 k value)))
    | Some Delete => None
    | Some Clear | None => files !! sha256 k
    end.
Proof.
  induction items as [|[key op] items IH]; intros files files'; simpl.
  - by intros [= <-].
  - destruct (step_disk _ _ _ _) as [n1|] eqn:Hs; [|done].
    apply step_disk_dir in Hs as (files1 & -> & Hother & Hkey).
    intros Hl [Hnew Hnd]%NoDup_cons Hinj.
    destruct (String.eqb_spec key k) as [->|Hne].
    + rewrite (loop_disk_untouched _ _ _ _ Hl).
      * rewrite Hkey. by destruct op.
      * intros k' Hk' Heq. apply Hnew.
        rewrite <- (Hinj k'); [done|by right|done].
    + rewrite (IH _ _ Hl Hnd).
      * rewrite Hother; [done|]. intros Heq. apply Hne.
        apply Hinj; [by left|done].
      * intros k' Hk'. apply Hinj. by right.
Qed.

(** The loop gets through when no name in the directory is taken by a
    subdirectory. *)
Lemma loop_disk_total items : forall files,
  (forall name, files !! name <> Some ESubdir) ->
  exists files', loop_disk sha256 items (Real (TDir files))
                 = (Real (TDir files'), None).
Proof.
  induction items as [|[key op] items IH]; intros files Hf; simpl; [eauto|].
  destruct op as [value| |]; simpl.
  - unfold write_text. simpl.
    destruct (files !! sha256 key) as [[]|] eqn:Hk;
      [|by apply Hf in Hk|]; simpl; apply IH; intros name;
      (destruct (decide (name = sha256 key)) as [->|];
       [by rewrite lookup_insert_eq | by rewrite lookup_insert_ne]).
  - unfold entry_exists, entry_unlink. simpl.
    destruct (files !! sha256 key) as [[]|] eqn:Hk;
      [|by apply Hf in Hk|]; simpl; [|by apply IH].
    apply IH. intros name.
    destruct (decide (name = sha256 key)) as [->|];
      [by rewrite lookup_delete_eq | by rewrite lookup_delete_ne].
  - by apply IH.
Qed.

(** A commit whose only staged entry sits under the key ["__clear__"]
    wipes the store and writes nothing, whatever the operation is. *)
Lemma commit_marker_only n op out :
  wipeable n ->
  commit sha256 (mkAdapter n [("__clear__", op)] out) =
  (Ok tt, mkAdapter (Real (TDir ∅)) [] out).
Proof.
  intros (n' & Hw & Hd)%wipe_in_place. unfold commit.
  erewrite bind_ok; last first.
  { rewrite commit_wipe_marker by done. by rewrite Hw. }
  erewrite bind_ok; last first.
  { rewrite commit_directory_spec. by rewrite Hd. }
  reflexivity.
Qed.

End Commit.

(** C9.  [update], [delete], [clear] and [rollback] do no disk I/O: any
    sequence of these calls returns normally and leaves the storage
    directory (and what was printed) as it was. *)
Theorem staging_leaves_disk (cs : list call) (s : StorageAdapter) :
  outcome (run_calls cs) s = Ok tt /\
  disk (state_after (run_calls cs) s) = disk s /\
  stdout (state_after (run_calls cs) s) = stdout s.
Proof.
  unfold outcome, state_after.
  destruct (run_calls_spec cs s) as (p & ->). done.
Qed.

(** C4 (the code where the claim fails).  [clear()] drops whatever was staged
    and stages the wipe marker alone, without touching the disk.  When the
    storage path is a regular file, a link to a regular file or a dangling
    link, [clear()] then [commit()] does not leave an empty store: the
    [mkdir] of line 74 raises [FileExistsError], the path stays as it was
    and the marker stays staged.  Lines 77-84, which replace such a file by a
    directory, come after line 74 and are not reached: the same [commit] with
    nothing staged does replace the file by an empty directory. *)
Theorem clear_then_commit_on_file (sha256 : string -> string)
    (pending : dict operation) (out : list exn) :
  let blocked n :=
    clear (mkAdapter n pending out)
    = (Ok tt, mkAdapter n [("__clear__", Clear)] out) /\
    (clear ;;; commit sha256) (mkAdapter n pending out)
    = (Raise FileExistsError, mkAdapter n [("__clear__", Clear)] out) in
  blocked (Real TFile) /\ blocked (Symlink TFile) /\ blocked (Symlink TNone) /\
  commit sha256 (mkAdapter (Real TFile) [] out)
  = (Ok tt, mkAdapter (Real (TDir ∅)) [] out).
Proof. simpl. repeat split. Qed.

(** Where the wipe does go through: on a storage path that is free, a
    directory or a link to a directory, [clear()] then [commit()] returns and
    leaves an empty directory with nothing staged: every [get] answers
    absent, also for a key that was updated before the [clear()]. *)
Theorem clear_then_commit (sha256 : string -> string) (s : StorageAdapter) :
  clear s = (Ok tt, mkAdapter (disk s) [("__clear__", Clear)] (stdout s)) /\
  (wipeable (disk s) ->
   (clear ;;; commit sha256) s =
     (Ok tt, mkAdapter (Real (TDir ∅)) [] (stdout s)) /\
   (forall k, outcome (clear ;;; commit sha256 ;;; get sha256 k) s = Ok None) /\
   (forall k v,
      outcome (update k v ;;; clear ;;; commit sha256 ;;; get sha256 k) s
      = Ok None)).
Proof.
  destruct s as [n pending out]. split; [done|]. intros Hw. simpl in Hw.
  assert (forall p, (clear ;;; commit sha256) (mkAdapter n p out) =
                    (Ok tt, mkAdapter (Real (TDir ∅)) [] out)) as Hcc.
  { intros p. erewrite bind_ok by reflexivity.
    by apply commit_marker_only. }
  split; [apply Hcc|]. split.
  - intros k. unfold outcome.
    change ((clear ;;; commit sha256 ;;; get sha256 k) (mkAdapter n pending out))
      with (match (clear ;;; commit sha256) (mkAdapter n pending out) with
            | (Ok a, s') => get sha256 k s'
            | (Raise e, s') => (Raise e, s')
            end).
    by rewrite Hcc, get_empty.
  - intros k v. unfold outcome.
    change ((update k v ;;; clear ;;; commit sha256 ;;; get sha256 k)
              (mkAdapter n pending out))
      with (match (clear ;;; commit sha256)
                    (mkAdapter n (dict_set k (Update v) pending) out) with
            | (Ok a, s') => get sha256 k s'
            | (Raise e, s') => (Raise e, s')
            end).
    by rewrite Hcc, get_empty.
Qed.

Lemma clear_then_commit_witness :
  let s := mkAdapter
             (Real (TDir {[ sample_digest "a" :=
                              EFile (Json (record sample_digest "a" "1")) ]}))
             [("b", Update "2")] [] in
  (clear ;;; commit sample_digest) s = (Ok tt, mkAdapter (Real (TDir ∅)) [] []) /\
  outcome (clear ;;; commit sample_digest ;;; get sample_digest "a") s = Ok None /\
  outcome (update "c" "3" ;;; clear ;;; commit sample_digest ;;;
           get sample_digest "c") s = Ok None.
Proof.
  intros s.
  destruct (clear_then_commit sample_digest s) as [_ H].
  destruct H as (H1 & H2 & H3); [right; reflexivity|].
  split; [exact H1|]. split; [apply H2 | apply H3].
Defined.

(** C10, as the code has it.  After [clear()], [update("__clear__", v)] or
    [delete("__clear__")] takes the place of the marker in the pending map,
    which then holds that operation alone; [commit()] looks for the key
    ["__clear__"] only, so when the storage path is free, a directory or a
    link to a directory it still wipes the store: [commit()] returns with
    nothing left staged, and under every name other than the digest of
    ["__clear__"] the storage directory has no entry any more. *)
Theorem marker_key_still_wipes (sha256 : string -> string) (v : string)
    (s : StorageAdapter) :
  let wiped m :=
    outcome m s = Ok tt /\
    _pending_operations (state_after m s) = [] /\
    forall name, name <> sha256 "__clear__" ->
      open_read name (disk (state_after m s)) = Raise FileNotFoundError in
  _pending_operations (state_after (clear ;;; update "__clear__" v) s)
    = [("__clear__", Update v)] /\
  _pending_operations (state_after (clear ;;; delete "__clear__") s)
    = [("__clear__", Delete)] /\
  (wipeable (disk s) ->
   wiped (clear ;;; update "__clear__" v ;;; commit sha256) /\
   wiped (clear ;;; delete "__clear__" ;;; commit sha256)).
Proof.
  destruct s as [n pending out]. split; [done|]. split; [done|].
  intros Hw. simpl in Hw. unfold outcome, state_after. split.
  - change ((clear ;;; update "__clear__" v ;;; commit sha256)
              (mkAdapter n pending out))
      with (commit sha256 (mkAdapter n [("__clear__", Update v)] out)).
    by rewrite commit_marker_only.
  - change ((clear ;;; delete "__clear__" ;;; commit sha256)
              (mkAdapter n pending out))
      with (commit sha256 (mkAdapter n [("__clear__", Delete)] out)).
    by rewrite commit_marker_only.
Qed.

Lemma marker_key_still_wipes_witness :
  let s := mkAdapter
             (Real (TDir {[ sample_digest "a" :=
                              EFile (Json (record sample_digest "a" "1")) ]}))
             [("b", Update "2")] [] in
  let after_update :=
    state_after (clear ;;; update "__clear__" "v" ;;; commit sample_digest) s in
  let after_delete :=
    state_after (clear ;;; delete "__clear__" ;;; commit sample_digest) s in
  open_read (sample_digest "a") (disk s)
    = Ok (Json (record sample_digest "a" "1")) /\
  _pending_operations after_update = [] /\
  open_read (sample_digest "a") (disk after_update) = Raise FileNotFoundError /\
  _pending_operations after_delete = [] /\
  open_read (sample_digest "a") (disk after_delete) = Raise FileNotFoundError.
Proof.
  intros s after_update after_delete.
  destruct (marker_key_still_wipes sample_digest "v" s) as (_ & _ & H).
  destruct H as [(_ & Hu & Hu') (_ & Hd & Hd')]; [right; reflexivity|].
  split; [reflexivity|].
  split; [exact Hu|]. split; [apply Hu'; discriminate|].
  split; [exact Hd|]. apply Hd'; discriminate.
Defined.

(** C10 as stated fails.  The store holds the entry of ["a"]; after
    [clear()], [update("__clear__", "v")] and [commit()] the entry of ["a"]
    is gone, so the store was wiped, and there is no file for the key
    ["__clear__"], so the update was not applied. *)
Lemma marker_key_counterexample :
  let s := mkAdapter
             (Real (TDir {[ sample_digest "a" :=
                              EFile (Json (record sample_digest "a" "1")) ]}))
             [] [] in
  let s' := state_after
              (clear ;;; update "__clear__" "v" ;;; commit sample_digest) s in
  outcome (get sample_digest "a") s = Ok (Some (JStr "1")) /\
  outcome (get sample_digest "a") s' = Ok None /\
  open_read (sample_digest "__clear__") (disk s') = Raise FileNotFoundError /\
  ~ (open_read (sample_digest "__clear__") (disk s')
     = Ok (Json (record sample_digest "__clear__" "v"))).
Proof. vm_compute. repeat split; discriminate. Qed.

(** C2.  [get] does not look at what is staged.  After [update(k, v)] and
    after [delete(k)], [get(k)] answers what it answered before; when the
    store holds the committed value [w] for [k] it answers [w] in both cases
    (so [v] only when [w] is [v], and not absent under a staged delete), and
    when the store has no file for [k] it answers absent although [v] is
    staged. *)
Theorem get_ignores_staged (sha256 : string -> string) (k v : string)
    (s : StorageAdapter) :
  outcome (update k v ;;; get sha256 k) s = outcome (get sha256 k) s /\
  outcome (delete k ;;; get sha256 k) s = outcome (get sha256 k) s /\
  (forall w, committed sha256 (disk s) k w ->
     outcome (update k v ;;; get sha256 k) s = Ok (Some (JStr w)) /\
     outcome (delete k ;;; get sha256 k) s = Ok (Some (JStr w))) /\
  (vacant sha256 (disk s) k ->
     outcome (update k v ;;; get sha256 k) s = Ok None) /\
  (outcome (get sha256 k) s <> Ok (Some (JStr v)) ->
     outcome (update k v ;;; get sha256 k) s <> Ok (Some (JStr v))).
Proof.
  destruct s as [n pending out]. unfold outcome.
  change ((update k v ;;; get sha256 k) (mkAdapter n pending out))
    with (get sha256 k (mkAdapter n (dict_set k (Update v) pending) out)).
  change ((delete k ;;; get sha256 k) (mkAdapter n pending out))
    with (get sha256 k (mkAdapter n (dict_set k Delete pending) out)).
  destruct (get_frame sha256 k n) as (r & Hr). rewrite !Hr. simpl.
  split; [done|]. split; [done|]. split; [|split; [|done]].
  - intros w (files & Hn & Hf).
    pose proof (get_record sha256 k w n files pending out Hn Hf) as Hg.
    rewrite Hr in Hg. by injection Hg as ->.
  - intros Hv. pose proof (get_vacant sha256 k n pending out Hv) as Hg.
    rewrite Hr in Hg. by injection Hg as ->.
Qed.

Lemma get_ignores_staged_witness :
  let held := mkAdapter
                (Real (TDir {[ sample_digest "a" :=
                                 EFile (Json (record sample_digest "a" "old")) ]}))
                [] [] in
  let empty := mkAdapter (Real (TDir ∅)) [] [] in
  outcome (update "a" "new" ;;; get sample_digest "a") held
    = Ok (Some (JStr "old")) /\
  outcome (delete "a" ;;; get sample_digest "a") held
    = Ok (Some (JStr "old")) /\
  outcome (update "a" "new" ;;; get sample_digest "a") empty = Ok None /\
  outcome (update "a" "new" ;;; get sample_digest "a") held
    <> Ok (Some (JStr "new")).
Proof.
  intros held empty.
  destruct (get_ignores_staged sample_digest "a" "new" held)
    as (_ & _ & Hc & _ & Hn).
  destruct (get_ignores_staged sample_digest "a" "new" empty)
    as (_ & _ & _ & Hv & _).
  destruct (Hc "old") as [H1 H2].
  { eexists. split; reflexivity. }
  split; [exact H1|]. split; [exact H2|].
  split; [apply Hv; reflexivity|].
  apply Hn. vm_compute. discriminate.
Defined.

(** C6 (the code at the failing inputs).  A file of the key that holds
    bytes that are not text, a JSON document that is not an object, or an
    object whose [key] is not a string makes [get] raise: the handler of
    [_load_from_file] lets [UnicodeDecodeError], [TypeError] and
    [AttributeError] through. *)
Theorem get_corrupt_entry_raises (sha256 : string -> string) (k : string)
    (files : gmap string entry) (pending : dict operation) (out : list exn) :
  let at_ c := with_entry sha256 k c files pending out in
  let no_object := Json (JArr []) in
  let key_not_text :=
    Json (JObj [("key", JNum 1); ("value", JStr "v"); ("hash", JStr "h")]) in
  get sha256 k (at_ Undecodable) = (Raise UnicodeDecodeError, at_ Undecodable) /\
  get sha256 k (at_ no_object) = (Raise TypeError, at_ no_object) /\
  get sha256 k (at_ key_not_text) = (Raise AttributeError, at_ key_not_text).
Proof.
  simpl. rewrite !get_unfold.
  unfold with_entry, _load_from_file, try_except, bind, lift, open_read. simpl.
  by rewrite !lookup_insert_eq.
Qed.



(** C3.  Let what comes before the loop of [commit] return, and let the
    staged entries be [items1], then [(key, op)], then [items2].  If the loop
    gets through [items1] and the file-system call for [(key, op)] raises
    [e], then [e] is an [OSError], [commit] prints it and raises it again,
    the storage directory stays as the entries of [items1] left it (nothing
    of [items2] is applied, nothing of [items1] is undone), and all the
    entries are still staged. *)
Theorem commit_stops_at_failure (sha256 : string -> string)
    (s s0 s1 : StorageAdapter) (items1 items2 : dict operation)
    (key : string) (op : operation) (e : exn) :
  (commit_wipe ;;; commit_directory) s = (Ok tt, s0) ->
  _pending_operations s0 = items1 ++ (key, op) :: items2 ->
  commit_loop sha256 items1 s0 = (Ok tt, s1) ->
  outcome (commit_step sha256 key op) s1 = Raise e ->
  is_OSError e = true /\
  commit sha256 s =
    (Raise e,
     mkAdapter (disk s1) (items1 ++ (key, op) :: items2) (stdout s ++ [e])).
Proof.
  intros H0 Hp H1 He. pose proof (before_loop_spec _ _ _ H0) as Hout.
  rewrite commit_unfold, H0, Hp.
  destruct s0 as [n0 p0 o0]. simpl in *. subst p0 o0.
  rewrite commit_loop_spec in H1. rewrite commit_loop_spec, loop_disk_app.
  destruct (loop_disk sha256 items1 n0) as [n1 [e1|]]; [done|].
  injection H1 as <-. unfold outcome in He. rewrite commit_step_spec in He.
  simpl in *. destruct (step_disk sha256 key op n1) as [n2|e2] eqn:Hs; [done|].
  simpl in He. injection He as ->. split; [|done].
  by eapply step_disk_OSError.
Qed.

Lemma commit_stops_at_failure_witness :
  let s := mkAdapter (Real (TDir {[ sample_digest "b" := ESubdir ]}))
             [("a", Update "1"); ("b", Update "2"); ("c", Update "3")] [] in
  commit sample_digest s =
    (Raise IsADirectoryError,
     mkAdapter
       (Real (TDir (<[ sample_digest "a" :=
                         EFile (Json (record sample_digest "a" "1")) ]>
                      {[ sample_digest "b" := ESubdir ]})))
       [("a", Update "1"); ("b", Update "2"); ("c", Update "3")]
       [IsADirectoryError]).
Proof.
  intros s.
  pose (s1 := mkAdapter
       (Real (TDir (<[ sample_digest "a" :=
                         EFile (Json (record sample_digest "a" "1")) ]>
                      {[ sample_digest "b" := ESubdir ]})))
       [("a", Update "1"); ("b", Update "2"); ("c", Update "3")] []).
  apply (commit_stops_at_failure sample_digest s s s1
           [("a", Update "1")] [("c", Update "3")] "b" (Update "2")
           IsADirectoryError); reflexivity.
Defined.



(** The round trip for the keys other than ["__clear__"].  Let the keys
    staged so far be those of a dictionary (no key twice), and let none of
    them share its digest with [k].  If [commit()] returns after
    [update(k, v)], then [get(k)] answers [v]. *)
Theorem round_trip_if_commit_returns (sha256 : string -> string)
    (k v : string) (s s' : StorageAdapter) :
  k <> "__clear__" ->
  NoDup (dict_keys (_pending_operations s)) ->
  (forall k', k' ∈ dict_keys (_pending_operations s) ->
              sha256 k' = sha256 k -> k' = k) ->
  (update k v ;;; commit sha256) s = (Ok tt, s') ->
  get sha256 k s' = (Ok (Some (JStr v)), s').
Proof.
  intros Hk Hnd Hinj. destruct s as [n pending out]. simpl in *.
  change ((update k v ;;; commit sha256) (mkAdapter n pending out))
    with (commit sha256 (mkAdapter n (dict_set k (Update v) pending) out)).
  rewrite commit_unfold.
  destruct ((commit_wipe ;;; commit_directory) _) as [[[]|e] s0] eqn:H0; [|done].
  apply before_loop_ok in H0 as (files & ->). simpl.
  set (p0 := if dict_contains "__clear__" (dict_set k (Update v) pending)
             then dict_pop "__clear__" (dict_set k (Update v) pending)
             else dict_set k (Update v) pending).
  assert (dict_get k p0 = Some (Update v)) as Hget.
  { unfold p0. destruct (dict_contains _ _).
    - rewrite dict_get_pop_ne by done. apply dict_get_set_eq.
    - apply dict_get_set_eq. }
  assert (NoDup (dict_keys p0)) as Hnd0.
  { unfold p0. destruct (dict_contains _ _);
      [apply dict_pop_NoDup|]; by apply dict_set_NoDup. }
  assert (forall k', k' ∈ dict_keys p0 -> sha256 k' = sha256 k -> k' = k) as Hinj0.
  { intros k' Hk'. assert (k' ∈ dict_keys (dict_set k (Update v) pending)) as Hin.
    { unfold p0 in Hk'. destruct (dict_contains _ _); [|done].
      by eapply dict_keys_pop. }
    apply dict_keys_set in Hin as [->|Hin]; [done|by apply Hinj]. }
  rewrite commit_loop_spec.
  destruct (loop_disk sha256 p0 _) as [n' [e|]] eqn:Hl; [done|].
  destruct (loop_disk_dir _ _ _ _ Hl) as (files' & ->). intros [= <-].
  apply (get_record sha256 k v _ files'); [done|].
  by rewrite (loop_disk_lookup sha256 k p0 files files' Hl Hnd0 Hinj0), Hget.
Qed.

(** [commit] returns when the storage path is a real directory without
    subdirectories, whatever is staged. *)
Theorem commit_returns (sha256 : string -> string)
    (files : gmap string entry) (pending : dict operation) (out : list exn) :
  (forall name, files !! name <> Some ESubdir) ->
  outcome (commit sha256) (mkAdapter (Real (TDir files)) pending out) = Ok tt.
Proof.
  intros Hf. unfold outcome. rewrite commit_unfold. unfold bind at 1.
  destruct (dict_contains "__clear__" pending) eqn:Hc.
  - rewrite commit_wipe_marker by done. simpl.
    rewrite commit_loop_spec.
    destruct (loop_disk_total sha256 (dict_pop "__clear__" pending) ∅)
      as (files' & ->); [|done].
    intros name. by rewrite lookup_empty.
  - rewrite commit_wipe_skip by done. simpl. rewrite commit_loop_spec.
    by destruct (loop_disk_total sha256 pending files Hf) as (files' & ->).
Qed.

(** X1.  Both together: on a healthy directory, [update(k, v)], [commit()] and
    [get(k)] return, and [get(k)] answers [v]. *)
Corollary round_trip (sha256 : string -> string) (k v : string)
    (files : gmap string entry) (pending : dict operation) (out : list exn) :
  k <> "__clear__" ->
  NoDup (dict_keys pending) ->
  (forall k', k' ∈ dict_keys pending -> sha256 k' = sha256 k -> k' = k) ->
  (forall name, files !! name <> Some ESubdir) ->
  outcome (update k v ;;; commit sha256 ;;; get sha256 k)
    (mkAdapter (Real (TDir files)) pending out) = Ok (Some (JStr v)).
Proof.
  intros Hk Hnd Hinj Hf.
  pose proof (commit_returns sha256 files (dict_set k (Update v) pending) out Hf)
    as Hret.
  pose proof (round_trip_if_commit_returns sha256 k v
                (mkAdapter (Real (TDir files)) pending out)) as Hrt.
  unfold outcome in *.
  change ((update k v ;;; commit sha256 ;;; get sha256 k)
            (mkAdapter (Real (TDir files)) pending out))
    with (match (update k v ;;; commit sha256)
                  (mkAdapter (Real (TDir files)) pending out) with
          | (Ok a, s') => get sha256 k s'
          | (Raise e, s') => (Raise e, s')
          end).
  change ((update k v ;;; commit sha256)
            (mkAdapter (Real (TDir files)) pending out))
    with (commit sha256
            (mkAdapter (Real (TDir files)) (dict_set k (Update v) pending) out))
    in *.
  destruct (commit sha256 _) as [[[]|e] s']; [|done].
  by rewrite (Hrt s' Hk Hnd Hinj eq_refl).
Qed.

Lemma round_trip_witness :
  outcome (update "k" "v" ;;; commit sample_digest ;;; get sample_digest "k")
    (mkAdapter (Real (TDir ∅)) [("a", Update "1"); ("k", Delete)] [])
  = Ok (Some (JStr "v")).
Proof.
  apply round_trip.
  - discriminate.
  - simpl. repeat constructor; set_solver.
  - intros k' _ H. by injection H.
  - intros name. by rewrite lookup_empty.
Defined.

(** C1 (the code at the failing input).  For the key ["__clear__"] the
    round trip fails: [update("__clear__", v)] then [commit()] wipes the
    storage directory and writes nothing, and [get("__clear__")] answers
    absent. *)
Theorem round_trip_marker_key (sha256 : string -> string) (v : string)
    (files : gmap string entry) (out : list exn) :
  (update "__clear__" v ;;; commit sha256 ;;; get sha256 "__clear__")
    (mkAdapter (Real (TDir files)) [] out)
  = (Ok None, mkAdapter (Real (TDir ∅)) [] out).
Proof.
  change ((update "__clear__" v ;;; commit sha256 ;;; get sha256 "__clear__")
            (mkAdapter (Real (TDir files)) [] out))
    with (match commit sha256
                  (mkAdapter (Real (TDir files)) [("__clear__", Update v)] out)
          with
          | (Ok a, s') => get sha256 "__clear__" s'
          | (Raise e, s') => (Raise e, s')
          end).
  rewrite commit_marker_only by (by right). apply get_empty.
Qed.

(** * Further properties of the storage adapter *)

Section Staged.
Variable sha256 : string -> string.

Lemma dict_set_set {V} k (x y : V) d :
  dict_set k x (dict_set k y d) = dict_set k x d.
Proof.
  induction d as [|[k1 x1] d IH]; simpl.
  - by rewrite String.eqb_refl.
  - destruct (String.eqb_spec k1 k) as [->|Hne]; simpl.
    + by rewrite String.eqb_refl.
    + destruct (String.eqb_spec k1 k); [done|]. by rewrite IH.
Qed.

Lemma healthy_insert name c files :
  healthy files -> healthy (<[name := EFile c]> files).
Proof.
  intros Hf other. destruct (decide (other = name)) as [->|].
  - by rewrite lookup_insert_eq.
  - rewrite lookup_insert_ne by done. apply Hf.
Qed.

Lemma healthy_delete name files :
  healthy files -> healthy (base.delete name files).
Proof.
  intros Hf other. destruct (decide (other = name)) as [->|].
  - by rewrite lookup_delete_eq.
  - rewrite lookup_delete_ne by done. apply Hf.
Qed.

Lemma healthy_empty : healthy ∅.
Proof. intros name. by rewrite lookup_empty. Qed.

(** On a healthy directory the loop gets through and leaves a healthy
    directory. *)
Lemma loop_disk_healthy items : forall files,
  healthy files ->
  exists files',
    loop_disk sha256 items (Real (TDir files)) = (Real (TDir files'), None) /\
    healthy files'.
Proof.
  induction items as [|[key op] items IH]; intros files Hf; simpl; [eauto|].
  destruct op as [value| |]; simpl.
  - unfold write_text. simpl.
    destruct (files !! sha256 key) as [[]|] eqn:Hk; [|by apply Hf in Hk|];
      simpl; apply IH; by apply healthy_insert.
  - unfold entry_exists, entry_unlink. simpl.
    destruct (files !! sha256 key) as [[]|] eqn:Hk; [|by apply Hf in Hk|];
      simpl; apply IH; [by apply healthy_delete|done].
  - by apply IH.
Qed.

(** The loop, stopped or not, leaves a directory in which the names that no
    staged key hashes to are as before. *)
Lemma loop_disk_frame name items : forall files n' oe,
  loop_disk sha256 items (Real (TDir files)) = (n', oe) ->
  (forall k', k' ∈ dict_keys items -> sha256 k' <> name) ->
  exists files', n' = Real (TDir files') /\ files' !! name = files !! name.
Proof.
  induction items as [|[key op] items IH]; intros files n' oe; simpl.
  - intros [= <- _] _. eauto.
  - destruct (step_disk _ _ _ _) as [n1|e] eqn:Hs.
    + apply step_disk_dir in Hs as (files1 & -> & Hother & _).
      intros Hl Hk. destruct (IH _ _ _ Hl) as (files' & -> & Heq).
      * intros k' Hk'. apply Hk. by right.
      * exists files'. split; [done|]. rewrite Heq. apply Hother.
        apply not_eq_sym, Hk. by left.
    + intros [= <- _] _. eauto.
Qed.

(** What a commit that returns leaves in the file of a key for which the
    operation [op] was staged last. *)
Lemma commit_staged_lookup k op n pending out s' :
  k <> "__clear__" ->
  NoDup (dict_keys pending) ->
  (forall k', k' ∈ dict_keys pending -> sha256 k' = sha256 k -> k' = k) ->
  commit sha256 (mkAdapter n (dict_set k op pending) out) = (Ok tt, s') ->
  exists files' : gmap string entry,
    s' = mkAdapter (Real (TDir files')) [] out /\
    match op with
    | Update value =>
        files' !! sha256 k = Some (EFile (Json (record sha256 k value)))
    | Delete => files' !! sha256 k = None
    | Clear => True
    end.
Proof.
  intros Hk Hnd Hinj. rewrite commit_unfold.
  destruct ((commit_wipe ;;; commit_directory) _) as [[[]|e] s0] eqn:H0; [|done].
  apply before_loop_ok in H0 as (files & ->). simpl.
  set (p0 := if dict_contains "__clear__" (dict_set k op pending)
             then dict_pop "__clear__" (dict_set k op pending)
             else dict_set k op pending).
  assert (dict_get k p0 = Some op) as Hget.
  { unfold p0. destruct (dict_contains _ _).
    - rewrite dict_get_pop_ne by done. apply dict_get_set_eq.
    - apply dict_get_set_eq. }
  assert (NoDup (dict_keys p0)) as Hnd0.
  { unfold p0. destruct (dict_contains _ _);
      [apply dict_pop_NoDup|]; by apply dict_set_NoDup. }
  assert (forall k', k' ∈ dict_keys p0 -> sha256 k' = sha256 k -> k' = k) as Hinj0.
  { intros k' Hk'. assert (k' ∈ dict_keys (dict_set k op pending)) as Hin.
    { unfold p0 in Hk'. destruct (dict_contains _ _); [|done].
      by eapply dict_keys_pop. }
    apply dict_keys_set in Hin as [->|Hin]; [done|by apply Hinj]. }
  rewrite commit_loop_spec.
  destruct (loop_disk sha256 p0 _) as [n' [e|]] eqn:Hl; [done|].
  destruct (loop_disk_dir _ _ _ _ Hl) as (files' & ->). intros [= <-].
  exists files'. split; [done|].
  pose proof (loop_disk_lookup sha256 k p0 files files' Hl Hnd0 Hinj0) as Hlk.
  rewrite Hget in Hlk. by destruct op.
Qed.

Lemma commit_healthy files pending out :
  healthy files ->
  exists files',
    commit sha256 (mkAdapter (Real (TDir files)) pending out) =
    (Ok tt, mkAdapter (Real (TDir files')) [] out) /\ healthy files'.
Proof.
  intros Hf. rewrite commit_unfold. unfold bind at 1.
  destruct (dict_contains "__clear__" pending) eqn:Hc.
  - rewrite commit_wipe_marker by done. simpl. rewrite commit_loop_spec.
    destruct (loop_disk_healthy (dict_pop "__clear__" pending) ∅ healthy_empty)
      as (files' & -> & Hf'). eauto.
  - rewrite commit_wipe_skip by done. simpl. rewrite commit_loop_spec.
    destruct (loop_disk_healthy pending files Hf) as (files' & -> & Hf'). eauto.
Qed.

Lemma before_loop_no_marker n pending out :
  dict_contains "__clear__" pending = false ->
  (commit_wipe ;;; commit_directory) (mkAdapter n pending out) =
  match in_place n with
  | Ok n' => (Ok tt, mkAdapter n' pending out)
  | Raise e => (Raise e, mkAdapter n pending out)
  end.
Proof.
  intros Hc. unfold bind. rewrite commit_wipe_skip by done.
  apply commit_directory_spec.
Qed.

End Staged.

(** X2.  On a real directory without subdirectories, [commit] returns
    whatever is staged: it leaves a real directory without subdirectories,
    nothing staged, and prints nothing. *)
Theorem commit_on_healthy_directory (sha256 : string -> string)
    (files : gmap string entry) (pending : dict operation) (out : list exn) :
  healthy files ->
  exists files',
    commit sha256 (mkAdapter (Real (TDir files)) pending out) =
    (Ok tt, mkAdapter (Real (TDir files')) [] out) /\ healthy files'.
Proof.
  intros Hf. rewrite commit_unfold. unfold bind at 1.
  destruct (dict_contains "__clear__" pending) eqn:Hc.
  - rewrite commit_wipe_marker by done. simpl. rewrite commit_loop_spec.
    destruct (loop_disk_healthy sha256 (dict_pop "__clear__" pending) ∅
                healthy_empty) as (files' & -> & Hf'). eauto.
  - rewrite commit_wipe_skip by done. simpl. rewrite commit_loop_spec.
    destruct (loop_disk_healthy sha256 pending files Hf) as (files' & -> & Hf').
    eauto.
Qed.

Lemma commit_on_healthy_directory_witness :
  exists files',
    commit sample_digest
      (mkAdapter (Real (TDir ∅)) [("a", Update "1"); ("b", Delete)] [IsADirectoryError])
    = (Ok tt, mkAdapter (Real (TDir files')) [] [IsADirectoryError]) /\
    healthy files'.
Proof. apply commit_on_healthy_directory. apply healthy_empty. Defined.



(** X5.  Deleting: for a key other than ["__clear__"], on a real directory
    without subdirectories and with staged keys that form a dictionary and
    do not share the digest of [k], [delete(k)] then [commit()] returns and
    [get(k)] answers absent, whether the key was stored or not. *)
Theorem delete_then_commit (sha256 : string -> string) (k : string)
    (files : gmap string entry) (pending : dict operation) (out : list exn) :
  k <> "__clear__" ->
  NoDup (dict_keys pending) ->
  (forall k', k' ∈ dict_keys pending -> sha256 k' = sha256 k -> k' = k) ->
  healthy files ->
  outcome (delete k ;;; commit sha256 ;;; get sha256 k)
    (mkAdapter (Real (TDir files)) pending out) = Ok None.
Proof.
  intros Hk Hnd Hinj Hf. unfold outcome.
  change ((delete k ;;; commit sha256 ;;; get sha256 k)
            (mkAdapter (Real (TDir files)) pending out))
    with (match commit sha256
                  (mkAdapter (Real (TDir files)) (dict_set k Delete pending) out)
          with
          | (Ok a, s') => get sha256 k s'
          | (Raise e, s') => (Raise e, s')
          end).
  destruct (commit_healthy sha256 files (dict_set k Delete pending) out Hf)
    as (files' & Hc & _).
  destruct (commit_staged_lookup sha256 k Delete _ pending out _ Hk Hnd Hinj Hc)
    as (f1 & [= <-] & Hl).
  rewrite Hc. rewrite get_vacant; [done|].
  unfold open_read. simpl. by rewrite Hl.
Qed.

Lemma delete_then_commit_witness :
  outcome (delete "a" ;;; commit sample_digest ;;; get sample_digest "a")
    (mkAdapter
       (Real (TDir {[ sample_digest "a" :=
                        EFile (Json (record sample_digest "a" "1")) ]}))
       [("a", Update "2"); ("b", Update "3")] [])
  = Ok None.
Proof.
  apply delete_then_commit.
  - discriminate.
  - simpl. repeat constructor; set_solver.
  - intros k' _ H. by injection H.
  - intros name. destruct (decide (name = sample_digest "a")) as [->|].
    + by rewrite lookup_singleton_eq.
    + by rewrite lookup_singleton_ne.
Defined.

(** X6.  The operation staged last for a key takes the place of the one
    staged before: [update(k, v1); update(k, v2)] leaves the adapter as
    [update(k, v2)] alone does, and so for [update] then [delete] and for
    [delete] then [update]. *)
Theorem restaging_replaces (k v1 v2 : string) (s : StorageAdapter) :
  (update k v1 ;;; update k v2) s = update k v2 s /\
  (update k v1 ;;; delete k) s = delete k s /\
  (delete k ;;; update k v2) s = update k v2 s.
Proof.
  destruct s as [n pending out].
  repeat split; unfold update, delete, bind, read_pending, set_pending; simpl;
    by rewrite dict_set_set.
Qed.

(** X7.  [rollback()] drops whatever the calls before it staged and leaves
    the storage directory alone: [get] answers as before the calls, and a
    [commit()] that follows on a real directory writes nothing. *)
Theorem rollback_discards (sha256 : string -> string) (cs : list call)
    (s : StorageAdapter) :
  (run_calls cs ;;; rollback) s = (Ok tt, mkAdapter (disk s) [] (stdout s)) /\
  (forall k,
     outcome (run_calls cs ;;; rollback ;;; get sha256 k) s
     = outcome (get sha256 k) s) /\
  (forall files,
     disk s = Real (TDir files) ->
     (run_calls cs ;;; rollback ;;; commit sha256) s =
     (Ok tt, mkAdapter (Real (TDir files)) [] (stdout s))).
Proof.
  destruct (run_calls_spec cs s) as (p & Hcs).
  assert ((run_calls cs ;;; rollback) s = (Ok tt, mkAdapter (disk s) [] (stdout s)))
    as Hrb by (unfold bind; by rewrite Hcs).
  split; [done|]. split.
  - intros k. unfold outcome, bind at 1. rewrite Hcs.
    change ((rollback ;;; get sha256 k) (mkAdapter (disk s) p (stdout s)))
      with (get sha256 k (mkAdapter (disk s) [] (stdout s))).
    destruct s as [n pending out]. simpl.
    destruct (get_frame sha256 k n) as (r & Hr). by rewrite !Hr.
  - intros files Hd. unfold bind at 1. rewrite Hcs.
    change ((rollback ;;; commit sha256) (mkAdapter (disk s) p (stdout s)))
      with (commit sha256 (mkAdapter (disk s) [] (stdout s))).
    rewrite Hd. apply commit_idle.
Qed.

Lemma rollback_discards_witness :
  let stored :=
    Real (TDir {[ sample_digest "a" :=
                    EFile (Json (record sample_digest "a" "1")) ]}) in
  (run_calls [CallUpdate "a" "2"; CallClear; CallDelete "b"] ;;; rollback ;;;
   commit sample_digest) (mkAdapter stored [] [])
  = (Ok tt, mkAdapter stored [] []).
Proof.
  intros stored.
  destruct (rollback_discards sample_digest
              [CallUpdate "a" "2"; CallClear; CallDelete "b"]
              (mkAdapter stored [] [])) as (_ & _ & H).
  by apply H.
Defined.

(** X8.  [__enter__] never raises and leaves a real directory at the
    storage path, with what is staged untouched: a real directory keeps its
    files, anything else (nothing, a regular file, a link of any kind) gives
    way to an empty directory.  Entering twice is entering once.  When the
    path was a link, the entries that were read through it are not in the
    new directory: every [get] answers absent. *)
Theorem enter_makes_directory (sha256 : string -> string) (s : StorageAdapter) :
  exists files,
    __enter__ s =
      (Ok tt, mkAdapter (Real (TDir files)) (_pending_operations s) (stdout s)) /\
    (forall f0, disk s = Real (TDir f0) -> files = f0) /\
    ((forall f0, disk s <> Real (TDir f0)) -> files = ∅) /\
    (__enter__ ;;; __enter__) s = __enter__ s /\
    (forall k, path_is_symlink (disk s) = true ->
               outcome (__enter__ ;;; get sha256 k) s = Ok None).
Proof.
  destruct s as [n pending out].
  destruct_node n;
    (eexists; split; [reflexivity|]; split; [by intros f0 [= <-] || done|];
     split; [by intros H; try (by destruct (H files)) |]; split; [done|];
     intros k Hl; try discriminate Hl; unfold outcome;
     erewrite bind_ok by reflexivity; by rewrite get_empty).
Qed.

Lemma enter_makes_directory_witness :
  let linked :=
    mkAdapter
      (Symlink (TDir {[ sample_digest "a" :=
                          EFile (Json (record sample_digest "a" "1")) ]}))
      [("b", Update "2")] [] in
  outcome (get sample_digest "a") linked = Ok (Some (JStr "1")) /\
  outcome (__enter__ ;;; get sample_digest "a") linked = Ok None.
Proof.
  intros linked. split; [reflexivity|].
  destruct (enter_makes_directory sample_digest linked) as (files & _ & _ & _ & _ & H).
  apply H. reflexivity.
Defined.

(** X9.  Where [commit] cannot put the directory in place.  On a dangling
    link at the storage path [commit] raises [FileExistsError] whatever is
    staged; with a wipe staged it does so also on a regular file and on a
    link to a regular file, because the directory is made again before the
    path is looked at.  In each case nothing changes: the path, what is
    staged (the marker too) and what was printed. *)
Theorem commit_blocked_path (sha256 : string -> string)
    (pending : dict operation) (out : list exn) :
  commit sha256 (mkAdapter (Symlink TNone) pending out) =
    (Raise FileExistsError, mkAdapter (Symlink TNone) pending out) /\
  (dict_contains "__clear__" pending = true ->
   commit sha256 (mkAdapter (Real TFile) pending out) =
     (Raise FileExistsError, mkAdapter (Real TFile) pending out) /\
   commit sha256 (mkAdapter (Symlink TFile) pending out) =
     (Raise FileExistsError, mkAdapter (Symlink TFile) pending out)).
Proof.
  split.
  - unfold commit, bind at 1.
    destruct (dict_contains "__clear__" pending) eqn:Hc.
    + by rewrite commit_wipe_marker.
    + rewrite commit_wipe_skip by done. unfold bind at 1.
      by rewrite commit_directory_spec.
  - intros Hc. split; unfold commit, bind at 1; by rewrite commit_wipe_marker.
Qed.

Lemma commit_blocked_path_witness :
  commit sample_digest (mkAdapter (Real TFile) [("__clear__", Clear)] []) =
    (Raise FileExistsError, mkAdapter (Real TFile) [("__clear__", Clear)] []).
Proof.
  destruct (commit_blocked_path sample_digest [("__clear__", Clear)] [])
    as [_ H].
  destruct H as [H _]; [reflexivity|]. exact H.
Defined.

(** X10.  With no wipe staged, [commit] on a storage path that is free, a
    regular file, a link to a regular file or a link to a directory does
    what it does on an empty directory: the file or the link is removed, and
    the entries behind a link to a directory are not carried over. *)
Theorem commit_replaces_path (sha256 : string -> string)
    (files : gmap string entry) (pending : dict operation) (out : list exn) :
  dict_contains "__clear__" pending = false ->
  let fresh := commit sha256 (mkAdapter (Real (TDir ∅)) pending out) in
  commit sha256 (mkAdapter (Real TNone) pending out) = fresh /\
  commit sha256 (mkAdapter (Real TFile) pending out) = fresh /\
  commit sha256 (mkAdapter (Symlink TFile) pending out) = fresh /\
  commit sha256 (mkAdapter (Symlink (TDir files)) pending out) = fresh.
Proof.
  intros Hc. simpl.
  rewrite !commit_unfold, !before_loop_no_marker by done. done.
Qed.

Lemma commit_replaces_path_witness :
  commit sample_digest
    (mkAdapter
       (Symlink (TDir {[ sample_digest "a" :=
                           EFile (Json (record sample_digest "a" "1")) ]}))
       [("b", Update "2")] [])
  = (Ok tt,
     mkAdapter
       (Real (TDir {[ sample_digest "b" :=
                        EFile (Json (record sample_digest "b" "2")) ]}))
       [] []).
Proof.
  destruct (commit_replaces_path sample_digest
              {[ sample_digest "a" := EFile (Json (record sample_digest "a" "1")) ]}
              [("b", Update "2")] []) as (_ & _ & _ & H); [reflexivity|].
  rewrite H. reflexivity.
Defined.

(** X11.  With no wipe staged, [commit] on a real directory leaves every
    name that no staged key hashes to as it was, whether it returns or
    stops at a failure. *)
Theorem commit_leaves_other_files (sha256 : string -> string)
    (files : gmap string entry) (pending : dict operation) (out : list exn)
    (name : string) :
  dict_contains "__clear__" pending = false ->
  (forall k', k' ∈ dict_keys pending -> sha256 k' <> name) ->
  open_read name
    (disk (state_after (commit sha256)
             (mkAdapter (Real (TDir files)) pending out)))
  = open_read name (Real (TDir files)).
Proof.
  intros Hc Hk. unfold state_after. rewrite commit_unfold. unfold bind at 1.
  rewrite commit_wipe_skip by done. simpl. rewrite commit_loop_spec.
  destruct (loop_disk sha256 pending _) as [n' oe] eqn:Hl.
  destruct (loop_disk_frame sha256 name _ _ _ _ Hl Hk) as (files' & -> & Heq).
  unfold open_read. destruct oe; simpl; by rewrite Heq.
Qed.

Lemma commit_leaves_other_files_witness :
  let stored :=
    {[ sample_digest "a" := EFile (Json (record sample_digest "a" "1"));
       sample_digest "b" := ESubdir ]} in
  open_read (sample_digest "a")
    (disk (state_after (commit sample_digest)
             (mkAdapter (Real (TDir stored))
                [("c", Update "3"); ("b", Delete)] [])))
  = Ok (Json (record sample_digest "a" "1")).
Proof.
  intros stored.
  rewrite (commit_leaves_other_files sample_digest stored
             [("c", Update "3"); ("b", Delete)] [] (sample_digest "a")).
  - reflexivity.
  - reflexivity.
  - intros k' Hk' Heq. assert (k' = "a") as -> by (by injection Heq).
    simpl in Hk'.
    apply elem_of_cons in Hk' as [?|Hk']; [done|].
    apply elem_of_cons in Hk' as [?|Hk']; [done|].
    by apply elem_of_nil in Hk'.
Defined.

Section Again.
Variable sha256 : string -> string.

Lemma last_effect_not_subdir name items r :
  last_effect sha256 name items = Some r -> r <> Some ESubdir.
Proof.
  induction items as [|[key op] items IH]; simpl; [done|].
  destruct (last_effect sha256 name items) as [r'|]; [by intros [= <-]; auto|].
  destruct (String.eqb _ _); [|done]. destruct op; by intros [= <-] || done.
Qed.

(** What a loop that got through leaves under each name. *)
Lemma loop_disk_effect items : forall files files',
  loop_disk sha256 items (Real (TDir files)) = (Real (TDir files'), None) ->
  forall name,
    files' !! name =
    match last_effect sha256 name items with
    | Some r => r
    | None => files !! name
    end.
Proof.
  induction items as [|[key op] items IH]; intros files files'; simpl.
  - by intros [= <-].
  - destruct (step_disk _ _ _ _) as [n1|] eqn:Hs; [|done].
    apply step_disk_dir in Hs as (files1 & -> & Hother & Hkey).
    intros Hl name. rewrite (IH _ _ Hl name).
    destruct (last_effect sha256 name items); [done|].
    destruct (String.eqb_spec (sha256 key) name) as [<-|Hne].
    + rewrite Hkey. by destruct op.
    + by apply Hother, not_eq_sym.
Qed.

(** A loop that got through gets through again on any directory that has
    no more subdirectories. *)
Lemma loop_disk_again items : forall files files' other,
  loop_disk sha256 items (Real (TDir files)) = (Real (TDir files'), None) ->
  (forall name, other !! name = Some ESubdir -> files !! name = Some ESubdir) ->
  exists other',
    loop_disk sha256 items (Real (TDir other)) = (Real (TDir other'), None).
Proof.
  induction items as [|[key op] items IH]; intros files files' other; simpl;
    [eauto|].
  destruct (step_disk sha256 key op (Real (TDir files))) as [n1|] eqn:Hs; [|done].
  pose proof Hs as Hs'.
  apply step_disk_dir in Hs' as (files1 & -> & Hother & Hkey).
  intros Hl Hsub.
  assert (op <> Clear -> other !! sha256 key <> Some ESubdir) as Hfree.
  { intros Hop Ho. apply Hsub in Ho. destruct op; simpl in Hs; [| |done].
    - unfold write_text in Hs. simpl in Hs. by rewrite Ho in Hs.
    - unfold entry_exists, entry_unlink in Hs. simpl in Hs.
      by rewrite Ho in Hs. }
  assert (exists other1,
            step_disk sha256 key op (Real (TDir other)) = Ok (Real (TDir other1)) /\
            forall name, other1 !! name = Some ESubdir ->
                         files1 !! name = Some ESubdir) as (other1 & -> & Hsub1).
  { destruct op as [value| |]; simpl.
    - unfold write_text. simpl.
      destruct (other !! sha256 key) as [[]|] eqn:Ho;
        [|by destruct Hfree|]; (eexists; split; [done|]); intros name;
        (destruct (decide (name = sha256 key)) as [->|Hne];
         [by rewrite lookup_insert_eq
         |rewrite lookup_insert_ne, Hother by done; apply Hsub]).
    - unfold entry_exists, entry_unlink. simpl.
      destruct (other !! sha256 key) as [[]|] eqn:Ho;
        [|by destruct Hfree|]; simpl; (eexists; split; [done|]); intros name;
        (destruct (decide (name = sha256 key)) as [->|Hne];
         [|rewrite ?lookup_delete_ne, Hother by done; apply Hsub]).
      + by rewrite lookup_delete_eq.
      + by rewrite Ho.
    - exists other. split; [done|]. intros name Ho.
      destruct (decide (name = sha256 key)) as [->|Hne].
      + rewrite Hkey. by apply Hsub.
      + rewrite Hother by done. by apply Hsub. }
  by eapply IH.
Qed.

(** Applying the staged entries to what they have produced changes
    nothing. *)
Lemma loop_disk_idempotent items files files' :
  loop_disk sha256 items (Real (TDir files)) = (Real (TDir files'), None) ->
  loop_disk sha256 items (Real (TDir files')) = (Real (TDir files'), None).
Proof.
  intros Hl. pose proof (loop_disk_effect _ _ _ Hl) as He.
  destruct (loop_disk_again items files files' files' Hl) as (again & Ha).
  { intros name Hn. rewrite He in Hn.
    destruct (last_effect sha256 name items) as [r|] eqn:Hr; [|done].
    by apply last_effect_not_subdir in Hr. }
  rewrite Ha. do 2 f_equal. f_equal. apply map_eq. intros name.
  rewrite (loop_disk_effect _ _ _ Ha name), (He name).
  by destruct (last_effect sha256 name items).
Qed.

End Again.

(** X12.  A retry is safe.  When the loop of [commit] has got through the
    entries [items1] on a real directory, running it over [items1] and what
    follows on the directory it reached gives the same directory and the
    same outcome as running it from the start: entries that are applied a
    second time change nothing. *)
Theorem commit_loop_resumes (sha256 : string -> string)
    (items1 items2 : dict operation) (files : gmap string entry)
    (pending : dict operation) (out : list exn) (s1 : StorageAdapter) :
  commit_loop sha256 items1 (mkAdapter (Real (TDir files)) pending out)
    = (Ok tt, s1) ->
  commit_loop sha256 (items1 ++ items2) s1 =
  commit_loop sha256 (items1 ++ items2)
    (mkAdapter (Real (TDir files)) pending out).
Proof.
  rewrite commit_loop_spec.
  destruct (loop_disk sha256 items1 _) as [n1 [e|]] eqn:Hl; [done|].
  destruct (loop_disk_dir _ _ _ _ Hl) as (files1 & ->). intros [= <-].
  rewrite !commit_loop_spec, !loop_disk_app, Hl.
  by rewrite (loop_disk_idempotent sha256 items1 files files1 Hl).
Qed.

Lemma commit_loop_resumes_witness :
  let items1 := [("a", Update "1"); ("b", Delete)] in
  let items2 := [("c", Update "3")] in
  let start := mkAdapter
                 (Real (TDir {[ sample_digest "b" :=
                                  EFile (Json (record sample_digest "b" "0")) ]}))
                 [] [] in
  commit_loop sample_digest (items1 ++ items2)
    (state_after (commit_loop sample_digest items1) start)
  = commit_loop sample_digest (items1 ++ items2) start.
Proof.
  intros items1 items2 start.
  apply (commit_loop_resumes sample_digest items1 items2 _ [] []).
  reflexivity.
Defined.

End DatabaseSpec.

(** * Properties of the cycle detector *)

Module SymlinkSpec.
Import Symlink.

#[local] Arguments resolve : simpl never.

(** ** Path resolution *)

(** One unfolding of [resolve]. *)
Lemma resolve_nil budget top follow stack :
  resolve budget top follow stack [] =
  match stack with here :: _ => Found (Dir here) | [] => Missing end.
Proof. by destruct budget. Qed.

Lemma resolve_empty budget top follow comps :
  resolve budget top follow [] comps = Missing.
Proof. by destruct budget, comps. Qed.

Lemma resolve_cons budget top follow here up c rest :
  resolve budget top follow (here :: up) (c :: rest) =
  if String.eqb c ".." then
    match up with
    | [] => resolve budget top follow (here :: up) rest
    | _ :: _ => resolve budget top follow up rest
    end
  else if (NAME_MAX <? String.length c)%nat then TooLong
  else
    match dict_get c here with
    | None => Missing
    | Some File => match rest with [] => Found File | _ :: _ => Missing end
    | Some (Dir children) =>
        resolve budget top follow (children :: here :: up) rest
    | Some (Link t) =>
        match rest, follow with
        | [], false => Found (Link t)
        | _, _ =>
            match budget with
            | O => Missing
            | S budget' =>
                resolve budget' top follow
                  (if absolute t then [top] else here :: up)
                  (parts t ++ rest)
            end
        end
    end.
Proof. destruct budget; reflexivity. Qed.

(** A result other than [ELOOP] and its like does not depend on the links
    that were left to follow. *)
Lemma resolve_mono b : forall b' top follow stack comps,
  b <= b' -> resolve b top follow stack comps <> Missing ->
  resolve b' top follow stack comps = resolve b top follow stack comps.
Proof.
  induction (Nat.lt_wf_0 b) as [b _ IHb].
  intros b' top follow stack comps Hle. revert stack.
  induction comps as [|c rest IHc]; intros stack Hne.
  - by rewrite !resolve_nil.
  - destruct stack as [|here up]; [by rewrite !resolve_empty|].
    rewrite resolve_cons in Hne. rewrite !resolve_cons.
    destruct (String.eqb c "..").
    { destruct up; by apply IHc. }
    destruct (NAME_MAX <? String.length c)%nat; [done|].
    destruct (dict_get c here) as [[|children|t]|];
      [done|by apply IHc| |done].
    destruct rest as [|c' rest'], follow; try done;
      (destruct b as [|b0]; [done|]; destruct b' as [|b0']; [lia|];
       apply IHb; [lia|lia|done]).
Qed.

(** [lstat] fails on a name that is too long only where [stat] does. *)
Lemma resolve_follow b : forall top stack comps,
  resolve b top false stack comps = TooLong ->
  resolve b top true stack comps = TooLong.
Proof.
  induction b as [|b IHb]; intros top stack comps; revert stack;
    (induction comps as [|c rest IHc]; intros stack;
     [by rewrite !resolve_nil|]);
    (destruct stack as [|here up]; [by rewrite !resolve_empty|]);
    rewrite !resolve_cons;
    (destruct (String.eqb c ".."); [destruct up; by apply IHc|]);
    (destruct (NAME_MAX <? String.length c)%nat; [done|]);
    (destruct (dict_get c here) as [[|children|t]|];
       [done|by apply IHc| |done]);
    destruct rest as [|c' rest']; try done.
  apply IHb.
Qed.

(** Walking a prefix of the path. *)
Lemma walks_resolve top stack pre j stack' :
  walks top stack pre j stack' ->
  forall b follow rest, rest <> [] ->
    resolve b top follow stack (pre ++ rest) =
    if decide (j <= b) then resolve (b - j) top follow stack' rest
    else Missing.
Proof.
  induction 1 as [stack|here up pre j stack' _ IH
                 |here up c children pre j stack' Hc Hn Hd _ IH
                 |here up c t pre j stack' Hc Hn Hd _ IH];
    intros b follow rest Hrest; simpl app.
  - rewrite Nat.sub_0_r. by rewrite decide_True by lia.
  - rewrite resolve_cons. simpl. destruct up; by apply IH.
  - rewrite resolve_cons, Hc, Hn, Hd. by apply IH.
  - rewrite resolve_cons, Hc, Hn, Hd.
    destruct (pre ++ rest) as [|c' rest'] eqn:Hpre.
    { by apply app_eq_nil in Hpre as [_ ?]. }
    cbv iota. rewrite <- Hpre.
    destruct b as [|b].
    + by rewrite decide_False by lia.
    + rewrite app_assoc, IH by done. simpl.
      destruct (decide (j <= b)), (decide (S j <= S b)); (done || lia).
Qed.

(** How [lstat] finds a link: a walk to its directory and a look at its
    name. *)
Lemma resolve_link b : forall top stack pre c body,
  resolve b top false stack (pre ++ [c]) = Found (Link body) ->
  exists j here up,
    walks top stack pre j (here :: up) /\ j <= b /\
    String.eqb c ".." = false /\
    (NAME_MAX <? String.length c)%nat = false /\
    dict_get c here = Some (Link body).
Proof.
  induction (Nat.lt_wf_0 b) as [b _ IHb].
  intros top stack pre c body. revert stack.
  induction pre as [|p pre IHp]; intros stack; simpl app;
    (destruct stack as [|here up]; [by rewrite resolve_empty|]);
    rewrite resolve_cons.
  - destruct (String.eqb c "..") eqn:Hc.
    { rewrite !resolve_nil. by destruct up. }
    destruct (NAME_MAX <? String.length c)%nat eqn:Hn; [done|].
    destruct (dict_get c here) as [[|children|t]|] eqn:Hd;
      [done|by rewrite resolve_nil| |done].
    intros [= ->]. exists 0, here, up.
    split; [constructor|]. split; [lia|done].
  - destruct (String.eqb p "..") eqn:Hp.
    { intros H. assert (p = "..") as -> by by apply String.eqb_eq.
      destruct up as [|up1 up2].
      - apply IHp in H as (j & here' & up' & ? & ? & ?).
        exists j, here', up'. split; [by constructor|done].
      - apply IHp in H as (j & here' & up' & ? & ? & ?).
        exists j, here', up'. split; [by constructor|done]. }
    destruct (NAME_MAX <? String.length p)%nat eqn:Hn; [done|].
    destruct (dict_get p here) as [[|children|t]|] eqn:Hd.
    + by destruct (pre ++ [c]) eqn:?.
    + intros (j & here' & up' & ? & ? & ?)%IHp.
      exists j, here', up'. split; [by eapply walks_dir|done].
    + destruct (pre ++ [c]) as [|c' rest'] eqn:Hpre.
      { by apply app_eq_nil in Hpre as [_ ?]. }
      cbv iota. rewrite <- Hpre. destruct b as [|b]; [done|].
      rewrite app_assoc.
      intros (j & here' & up' & ? & ? & ?)%IHb; [|lia].
      exists (S j), here', up'. split; [by eapply walks_link|].
      split; [lia|done].
    + done.
Qed.

Section Resolution.
Variable fs : filesystem.


Lemma lstat_stat_TooLong p : lstat fs p = TooLong -> stat fs p = TooLong.
Proof.
  unfold lstat, stat, os_stat. destruct (_ <=? _)%nat; [done|].
  apply resolve_follow.
Qed.

(** A path that [lstat] finds to be a link is short enough, and its last
    component names the link in the directory the others lead to. *)
Lemma lstat_link t body :
  lstat fs t = Found (Link body) ->
  (PATH_MAX <=? path_length t)%nat = false /\
  exists pre c j here up,
    parts t = pre ++ [c] /\
    walks (root fs) (start fs t) pre j (here :: up) /\
    String.eqb c ".." = false /\
    (NAME_MAX <? String.length c)%nat = false /\
    dict_get c here = Some (Link body).
Proof.
  unfold lstat, os_stat. destruct (_ <=? _)%nat; [done|]. intros H.
  split; [done|].
  destruct (decide (parts t = [])) as [Hnil|Hne].
  { rewrite Hnil, resolve_nil in H. by destruct (start fs t). }
  apply exists_last in Hne as (pre & c & Hparts). rewrite Hparts in H.
  apply resolve_link in H as (j & here & up & Hw & _ & Hc & Hn & Hd).
  by exists pre, c, j, here, up.
Qed.

Lemma next_lstat t r :
  next fs t = Some r -> exists body, lstat fs t = Found (Link body).
Proof.
  unfold next, readlink.
  destruct (lstat fs t) as [[| |body]| |]; try done. eauto.
Qed.

(** [stat] on a link is [stat] on where the link leads, with one link less
    to follow. *)
Lemma stat_link b t r :
  next fs t = Some r ->
  os_stat (S b) true fs t = TooLong -> os_stat b true fs r = TooLong.
Proof.
  intros Hn. pose proof Hn as (body & Hl)%next_lstat.
  pose proof Hl as
    (Hlen & pre & c & j & here & up & Hparts & Hw & Hc & Hnm & Hd)%lstat_link.
  unfold next, readlink in Hn. rewrite Hl in Hn. injection Hn as <-.
  unfold os_stat at 1. rewrite Hlen, Hparts.
  rewrite (walks_resolve _ _ _ _ _ Hw) by done.
  destruct (decide (j <= S b)); [|done].
  rewrite resolve_cons, Hc, Hnm, Hd.
  destruct (S b - j) as [|b0] eqn:Hb; [done|]. rewrite app_nil_r.
  intros H. clear Hlen. unfold os_stat.
  destruct (PATH_MAX <=? _)%nat; [done|].
  destruct (absolute body) eqn:Hab.
  - unfold start. rewrite Hab.
    rewrite (resolve_mono b0 b); [done|lia|by rewrite H].
  - cbn [parts absolute]. rewrite removelast_last.
    change (start fs (mkPath (absolute t) (pre ++ parts body)))
      with (start fs t).
    destruct (decide (parts body = [])) as [Hnil|Hne].
    { by rewrite Hnil, resolve_nil in H. }
    rewrite (walks_resolve _ _ _ _ _ Hw) by done.
    rewrite decide_True by lia.
    rewrite (resolve_mono b0 (b - j)); [done|lia|by rewrite H].
Qed.

Lemma stat_zero t r : next fs t = Some r -> os_stat 0 true fs t <> TooLong.
Proof.
  intros (body & Hl)%next_lstat.
  pose proof Hl as
    (Hlen & pre & c & j & here & up & Hparts & Hw & Hc & Hnm & Hd)%lstat_link.
  unfold os_stat. rewrite Hlen, Hparts.
  rewrite (walks_resolve _ _ _ _ _ Hw) by done.
  destruct (decide (j <= 0)); [|done].
  by rewrite resolve_cons, Hc, Hnm, Hd.
Qed.



(** Links that can be read for ever: [stat] ends in [ELOOP] at the latest,
    never in [ENAMETOOLONG]. *)
Lemma endless_next p r : endless fs p -> next fs p = Some r -> endless fs r.
Proof. intros Hp Hr k. specialize (Hp (S k)). simpl in Hp. by rewrite Hr in Hp. Qed.

Lemma endless_link p : endless fs p -> is_Some (next fs p).
Proof. intros Hp. specialize (Hp 1). simpl in Hp. by destruct (next fs p). Qed.

Lemma os_stat_endless b : forall p,
  endless fs p -> os_stat b true fs p <> TooLong.
Proof.
  induction b as [|b IH]; intros p Hp;
    destruct (endless_link p Hp) as (r & Hr).
  - by eapply stat_zero.
  - intros Ht. apply (IH r); [by eapply endless_next|by eapply stat_link].
Qed.

Lemma stat_endless p : endless fs p -> stat fs p <> TooLong.
Proof. apply os_stat_endless. Qed.

End Resolution.

(** ** The loop *)

Section Walk.
Variable fs : filesystem.

Lemma exists_ok p : stat fs p <> TooLong -> exists b, exists_ fs p = Ok b.
Proof. unfold exists_. destruct (stat fs p); [eauto|eauto|done]. Qed.

Lemma exists_raises p e :
  exists_ fs p = Raise e -> stat fs p = TooLong /\ e = OtherOSError.
Proof. unfold exists_. destruct (stat fs p); [done|done|]. by intros [= <-]. Qed.

(** [is_symlink] raises only where [exists] has raised before. *)
Lemma is_symlink_raises p e :
  is_symlink fs p = Raise e -> exists_ fs p = Raise OtherOSError.
Proof.
  unfold is_symlink, exists_.
  destruct (lstat fs p) as [[]| |] eqn:Hl; try done.
  by rewrite (lstat_stat_TooLong _ _ Hl).
Qed.

Lemma is_symlink_next p : is_symlink fs p = Ok true <-> is_Some (next fs p).
Proof.
  unfold is_symlink, next, readlink.
  destruct (lstat fs p) as [[]| |]; simpl; split;
    (discriminate || eauto || by intros [? ?]).
Qed.

Lemma not_symlink_next p : is_symlink fs p = Ok false -> next fs p = None.
Proof.
  unfold is_symlink, next, readlink.
  by destruct (lstat fs p) as [[]| |].
Qed.

Lemma next_not_symlink p b :
  next fs p = None -> exists_ fs p = Ok b -> is_symlink fs p = Ok false.
Proof.
  intros Hn He. destruct (is_symlink fs p) as [[|]|e] eqn:Hs; [|done|].
  - apply is_symlink_next in Hs as (? & ?). congruence.
  - apply is_symlink_raises in Hs. congruence.
Qed.

(** The join of the loop is where the link leads. *)
Lemma next_target_path p t :
  readlink fs p = Ok t -> next fs p = Some (target_path_of p t).
Proof.
  unfold next. intros ->. f_equal.
  unfold target_path_of, is_absolute, joinpath, parent.
  by destruct (absolute t).
Qed.

(** A turn of the loop from a link that leads to [q]. *)
Lemma walk_step fuel visited p q :
  next fs p = Some q ->
  walk (S fuel) fs visited p =
  if decide (q ∈ visited) then Some (Ok true)
  else
    match exists_ fs q with
    | Raise e => Some (Raise e)
    | Ok _ =>
        match next fs q with
        | Some _ => walk fuel fs (visited ∪ {[q]}) q
        | None => Some (Ok false)
        end
    end.
Proof.
  intros Hn. simpl. destruct (readlink fs p) as [t|e] eqn:Ht.
  - rewrite (next_target_path _ _ Ht) in Hn. injection Hn as ->.
    destruct (decide _); [done|]. unfold neither.
    destruct (exists_ fs q) as [b|e] eqn:He; [|done].
    destruct (is_symlink fs q) as [[|]|e] eqn:Hs.
    + apply is_symlink_next in Hs as (r & ->). by destruct b.
    + rewrite (not_symlink_next _ Hs). by destruct b.
    + apply is_symlink_raises in Hs. congruence.
  - unfold next in Hn. by rewrite Ht in Hn.
Qed.

(** A turn of the loop from what is not a link. *)
Lemma walk_stop fuel visited p :
  next fs p = None -> exists e, walk (S fuel) fs visited p = Some (Raise e).
Proof.
  unfold next, readlink. simpl. unfold readlink.
  destruct (lstat fs p) as [[]| |]; try done; eauto.
Qed.

(** On a link where [exists] does not raise, the function is its loop. *)
Lemma is_circular_symlink_link fuel p :
  is_Some (next fs p) -> stat fs p <> TooLong ->
  is_circular_symlink fuel fs p = walk fuel fs ∅ p.
Proof.
  intros Hs%is_symlink_next (b & He)%exists_ok.
  unfold is_circular_symlink, neither. rewrite He, Hs. by destruct b.
Qed.

Lemma follow_links_S n p q :
  follow_links fs (S n) p = Some q <->
  exists r, next fs p = Some r /\ follow_links fs n r = Some q.
Proof.
  simpl. destruct (next fs p) as [r|]; split.
  - eauto.
  - by intros (r' & [= <-] & ?).
  - discriminate.
  - by intros (? & ? & ?).
Qed.

Lemma follow_links_add a : forall b p,
  follow_links fs (a + b) p =
  match follow_links fs a p with
  | Some r => follow_links fs b r
  | None => None
  end.
Proof.
  induction a as [|a IH]; intros b p; simpl; [done|].
  destruct (next fs p); [apply IH|done].
Qed.




(** Links that lead back to where they started can be read for ever. *)
Lemma follow_links_prefix n : forall k p q,
  follow_links fs n p = Some q -> k <= n -> is_Some (follow_links fs k p).
Proof.
  induction n as [|n IH]; intros [|k] p q; simpl; try (by eauto); [lia|].
  destruct (next fs p); [|done]. intros. eapply IH; [done|lia].
Qed.

Lemma endless_ring m q : follow_links fs (S m) q = Some q -> endless fs q.
Proof.
  intros Hq k. induction (Nat.lt_wf_0 k) as [k _ IH].
  destruct (decide (k <= S m)) as [Hle|Hgt].
  - by eapply follow_links_prefix.
  - replace k with (S m + (k - S m)) by lia.
    rewrite follow_links_add, Hq. apply IH. lia.
Qed.

Lemma endless_cycle n m p q :
  follow_links fs n p = Some q -> follow_links fs (S m) q = Some q ->
  endless fs p.
Proof.
  intros Hp Hq k. destruct (decide (k <= n)) as [Hle|Hgt].
  - by eapply follow_links_prefix.
  - replace k with (n + (k - n)) by lia.
    rewrite follow_links_add, Hp. by eapply endless_ring.
Qed.

End Walk.



(** ** A link that points at itself through [x/..] *)

Lemma detours_front n : detours (S n) = "x" :: ".." :: detours n.
Proof.
  induction n as [|n IH]; [done|].
  change (detours (S (S n))) with (detours (S n) ++ ["x"; ".."]).
  rewrite IH at 1. reflexivity.
Qed.

Lemma detours_length n rest :
  sum_list (map (fun c => S (String.length c)) (detours n ++ rest)) =
  5 * n + sum_list (map (fun c => S (String.length c)) rest).
Proof.
  induction n as [|n IH]; [done|].
  rewrite detours_front. cbn [app map sum_list sum_list_with]. rewrite IH.
  unfold id. simpl. lia.
Qed.

Lemma dotdot_path_length n : path_length (dotdot_path n) = 5 * n + 4.
Proof.
  unfold path_length. cbn [parts absolute dotdot_path abs].
  cbn [map sum_list sum_list_with]. rewrite detours_length.
  unfold id. simpl. lia.
Qed.

(** Going into [x] and back leaves the kernel in [/d]. *)
Lemma resolve_detours budget top follow up n rest :
  let d := [("x", Dir []); ("a", Link (mkPath false ["x"; ".."; "a"]))] in
  resolve budget top follow (d :: up) (detours n ++ rest) =
  resolve budget top follow (d :: up) rest.
Proof.
  intros d. induction n as [|n IH]; [done|].
  rewrite detours_front. simpl app.
  rewrite resolve_cons. simpl. rewrite resolve_cons. simpl. exact IH.
Qed.

Lemma lstat_dotdot n :
  n <= 818 ->
  lstat fs_dotdot (dotdot_path n) = Found (Link (rel ["x"; ".."; "a"])).
Proof.
  intros Hn. unfold lstat, os_stat. rewrite dotdot_path_length.
  assert ((PATH_MAX <=? 5 * n + 4)%nat = false) as ->.
  { apply Nat.leb_gt. unfold PATH_MAX. lia. }
  unfold dotdot_path, start. simpl.
  rewrite resolve_cons. simpl. rewrite resolve_detours.
  by rewrite resolve_cons.
Qed.

(** Following the link never ends: the kernel gives up with [ELOOP]. *)
Lemma resolve_dotdot_loop budget : forall top up n,
  let d := [("x", Dir []); ("a", Link (mkPath false ["x"; ".."; "a"]))] in
  resolve budget top true (d :: up) (detours n ++ ["a"]) = Missing.
Proof.
  induction budget as [|budget IH]; intros top up n d;
    rewrite resolve_detours, resolve_cons; simpl; [done|].
  apply (IH top up 1).
Qed.

Lemma stat_dotdot n :
  stat fs_dotdot (dotdot_path n) = if (n <=? 818)%nat then Missing else TooLong.
Proof.
  unfold stat, os_stat. rewrite dotdot_path_length.
  destruct (Nat.leb_spec n 818).
  - assert ((PATH_MAX <=? 5 * n + 4)%nat = false) as ->.
    { apply Nat.leb_gt. unfold PATH_MAX. lia. }
    unfold dotdot_path, start. simpl.
    rewrite resolve_cons. simpl. apply resolve_dotdot_loop.
  - assert ((PATH_MAX <=? 5 * n + 4)%nat = true) as ->; [|done].
    apply Nat.leb_le. unfold PATH_MAX. lia.
Qed.

Lemma next_dotdot n :
  n <= 818 -> next fs_dotdot (dotdot_path n) = Some (dotdot_path (S n)).
Proof.
  intros Hn. unfold next, readlink. rewrite lstat_dotdot by done.
  unfold dotdot_path, abs.
  cbn [is_absolute absolute parts rel]. do 2 f_equal.
  change ("d" :: detours n ++ ["a"]) with (("d" :: detours n) ++ ["a"]).
  rewrite removelast_last. simpl. f_equal. by rewrite <- app_assoc.
Qed.

Lemma dotdot_path_parts n : length (parts (dotdot_path n)) = 2 * n + 2.
Proof.
  simpl. rewrite length_app. simpl.
  induction n as [|n IH]; [done|]. simpl. rewrite length_app. simpl. lia.
Qed.

(** Every turn of the loop makes a path that is longer than all it has
    seen, so the visited set never answers; the loop goes on until the path
    is too long for [stat]. *)
Lemma walk_dotdot fuel : forall n visited,
  n <= 818 ->
  (forall v, v ∈ visited -> length (parts v) < 2 * n + 4) ->
  walk fuel fs_dotdot visited (dotdot_path n) =
  if (fuel <=? 818 - n)%nat then None else Some (Raise OtherOSError).
Proof.
  induction fuel as [|fuel IH]; intros n visited Hn Hvis; [done|].
  rewrite (walk_step _ _ _ _ _ (next_dotdot n Hn)).
  destruct (decide _) as [Hin|_].
  { apply Hvis in Hin. rewrite dotdot_path_parts in Hin. lia. }
  unfold exists_. rewrite stat_dotdot.
  destruct (Nat.leb_spec (S n) 818) as [Hle|Hgt].
  - rewrite next_dotdot by done. rewrite IH; [|done|].
    + destruct (Nat.leb_spec fuel (818 - S n)),
        (Nat.leb_spec (S fuel) (818 - n)); (done || lia).
    + intros v [Hv| ->%elem_of_singleton]%elem_of_union.
      * apply Hvis in Hv. lia.
      * rewrite dotdot_path_parts. lia.
  - destruct (Nat.leb_spec (S fuel) (818 - n)); [lia|done].
Qed.

(** X17.  What the visited set does give: when the target paths the loop can
    make all lie in a finite set [S], the loop returns within [size S + 1]
    turns. *)
Lemma walk_returns_in_closed_set (fs : filesystem) (S : gset path) :
  (forall q r, q ∈ S -> next fs q = Some r -> r ∈ S) ->
  forall fuel visited p,
    (forall r, next fs p = Some r -> r ∈ S) ->
    size (S ∖ visited) < fuel ->
    is_Some (walk fuel fs visited p).
Proof.
  intros Hclosed. induction fuel as [|fuel IH]; intros visited p Hp Hfuel; [lia|].
  destruct (next fs p) as [q|] eqn:Hq.
  - rewrite (walk_step _ _ _ _ _ Hq).
    destruct (decide _) as [|Hnew]; [done|].
    destruct (exists_ fs q); [|done].
    destruct (next fs q) eqn:Hr; [|done].
    apply IH; [intros r' Hr'; by eapply Hclosed; eauto|].
    assert (S ∖ (visited ∪ {[q]}) ⊂ S ∖ visited) as Hlt%subset_size.
    { assert (q ∈ S) by eauto. set_solver. }
    lia.
  - destruct (walk_stop fs fuel visited p Hq) as (e & ->). done.
Qed.

(** C8 (the code at the failing input).  In [fs_dotdot] the only link is
    [/d/a -> x/../a], which the kernel resolves to [/d/a] itself: a chain of
    one link.  Called on [/d/a], the function does not report the cycle.
    The joined target paths [/d/x/../a], [/d/x/../x/../a], ... are all
    different, so none is ever found in [visited]: the loop is still running
    after 818 turns, and in turn 819 the joined path has 4099 letters and
    [exists()] raises [OSError] ([ENAMETOOLONG]), which ends the call. *)
Theorem is_circular_symlink_dotdot_runs_on :
  forall fuel,
    is_circular_symlink fuel fs_dotdot (abs ["d"; "a"]) =
    if (fuel <=? 818)%nat then None else Some (Raise OtherOSError).
Proof.
  intros fuel. change (abs ["d"; "a"]) with (dotdot_path 0).
  rewrite is_circular_symlink_link.
  - apply (walk_dotdot fuel 0); [lia|set_solver].
  - rewrite next_dotdot by lia. eauto.
  - by rewrite stat_dotdot.
Qed.

(** The target path of the first turn names the link itself, and following
    it never ends ([ELOOP]). *)
Example dotdot_is_a_cycle :
  lstat fs_dotdot (abs ["d"; "x"; ".."; "a"]) = lstat fs_dotdot (abs ["d"; "a"]) /\
  lstat fs_dotdot (abs ["d"; "a"]) = Found (Link (rel ["x"; ".."; "a"])) /\
  stat fs_dotdot (abs ["d"; "a"]) = Missing.
Proof. repeat split; reflexivity. Qed.

(** * Further properties of the cycle detector *)

Section Answers.
Variable fs : filesystem.

(** Once a target path lies in [visited], getting back to it ends the loop
    with [True]. *)
Lemma walk_revisit n : forall fuel visited p q,
  endless fs p ->
  follow_links fs (S n) p = Some q -> q ∈ visited -> n < fuel ->
  walk fuel fs visited p = Some (Ok true).
Proof.
  induction n as [|n IH]; intros fuel visited p q Hend Hp Hq Hfuel;
    apply follow_links_S in Hp as (r & Hr & Hrq);
    (destruct fuel as [|fuel]; [lia|]); rewrite (walk_step _ _ _ _ _ Hr).
  - injection Hrq as ->. by destruct (decide _).
  - destruct (decide _); [done|].
    assert (endless fs r) as Hr' by by eapply endless_next.
    destruct (exists_ok fs r) as (b & ->); [by apply stat_endless|].
    destruct (endless_link fs r Hr') as (? & ->).
    apply (IH _ _ _ q); [done|done|set_solver|lia].
Qed.

(** Following links up to a link [q]: the loop has answered [True] on the
    way, or it stands at [q] with [q] in [visited]. *)
Lemma walk_reaches n : forall fuel visited p q,
  endless fs p ->
  follow_links fs (S n) p = Some q -> n < fuel ->
  walk fuel fs visited p = Some (Ok true) \/
  exists visited', q ∈ visited' /\
    walk fuel fs visited p = walk (fuel - S n) fs visited' q.
Proof.
  induction n as [|n IH]; intros fuel visited p q Hend Hp Hfuel;
    apply follow_links_S in Hp as (r & Hr & Hrq);
    (destruct fuel as [|fuel]; [lia|]); rewrite (walk_step _ _ _ _ _ Hr);
    (destruct (decide _); [by left|]);
    assert (endless fs r) as Hr' by (by eapply endless_next);
    (destruct (exists_ok fs r) as (b & ->); [by apply stat_endless|]);
    destruct (endless_link fs r Hr') as (? & ->).
  - injection Hrq as ->. right.
    exists (visited ∪ {[q]}). split; [set_solver|].
    by replace (S fuel - 1) with fuel by lia.
  - apply IH; [done|done|lia].
Qed.

Lemma walk_true fuel : forall visited p,
  walk fuel fs visited p = Some (Ok true) ->
  exists n q,
    follow_links fs (S n) p = Some q /\
    (q ∈ visited \/ exists i, i < n /\ follow_links fs (S i) p = Some q).
Proof.
  induction fuel as [|fuel IH]; intros visited p; [done|].
  destruct (next fs p) as [r|] eqn:Hr.
  - rewrite (walk_step _ _ _ _ _ Hr).
    destruct (decide _) as [Hin|_].
    + intros _. exists 0, r. split; [|by left]. simpl. by rewrite Hr.
    + destruct (exists_ fs r); [|done]. destruct (next fs r); [|done].
      intros (n & q & Hq & Hwhere)%IH. exists (S n), q. split.
      { apply follow_links_S. eauto. }
      destruct Hwhere as [[Hin| ->%elem_of_singleton]%elem_of_union|(i & Hi & Hiq)].
      * by left.
      * right. exists 0. split; [lia|]. simpl. by rewrite Hr.
      * right. exists (S i). split; [lia|]. apply follow_links_S. eauto.
  - destruct (walk_stop fs fuel visited p Hr) as (e & ->). done.
Qed.

Lemma walk_false fuel : forall visited p,
  walk fuel fs visited p = Some (Ok false) ->
  exists n q, follow_links fs (S n) p = Some q /\ is_symlink fs q = Ok false.
Proof.
  induction fuel as [|fuel IH]; intros visited p; [done|].
  destruct (next fs p) as [r|] eqn:Hr.
  - rewrite (walk_step _ _ _ _ _ Hr).
    destruct (decide _) as [Hin|_]; [done|].
    destruct (exists_ fs r) as [b|] eqn:He; [|done].
    destruct (next fs r) eqn:Hs.
    + intros (n & q & Hq & Hend)%IH. exists (S n), q. split; [|done].
      apply follow_links_S. eauto.
    + intros _. exists 0, r. split; [simpl; by rewrite Hr|].
      by eapply next_not_symlink.
  - destruct (walk_stop fs fuel visited p Hr) as (e & ->). done.
Qed.

(** From a link, the loop raises only what [exists()] raises on a joined
    target path. *)
Lemma walk_raises fuel : forall visited p e,
  is_Some (next fs p) ->
  walk fuel fs visited p = Some (Raise e) ->
  exists n q, follow_links fs (S n) p = Some q /\ exists_ fs q = Raise e.
Proof.
  induction fuel as [|fuel IH]; intros visited p e [r Hr]; [done|].
  rewrite (walk_step _ _ _ _ _ Hr).
  destruct (decide _) as [Hin|_]; [done|].
  destruct (exists_ fs r) as [b|e'] eqn:He.
  - destruct (next fs r) eqn:Hs; [|done].
    intros (n & q & Hq & Hraise)%IH; [|by rewrite Hs].
    exists (S n), q. split; [|done]. apply follow_links_S. eauto.
  - intros [= <-]. exists 0, r. split; [simpl; by rewrite Hr|done].
Qed.

End Answers.

(** X13.  A cycle of any length is found.  When reading links from [p]
    leads to a joined target path [q] and reading more links from [q] leads
    back to [q], [is_circular_symlink] returns [True], within as many turns
    as links were read plus one. *)
Theorem is_circular_symlink_cycle (fs : filesystem) (fuel n m : nat)
    (p q : path) :
  follow_links fs (S n) p = Some q ->
  follow_links fs (S m) q = Some q ->
  n + m + 1 < fuel ->
  is_circular_symlink fuel fs p = Some (Ok true).
Proof.
  intros Hp Hq Hfuel.
  assert (endless fs p) as Hend by by eapply endless_cycle.
  rewrite is_circular_symlink_link;
    [|by apply endless_link|by apply stat_endless].
  destruct (walk_reaches fs n fuel ∅ p q Hend Hp) as [->|(visited' & Hin & ->)];
    [lia|done|].
  apply (walk_revisit fs m _ _ _ q); [by eapply endless_ring|done|done|lia].
Qed.

Lemma is_circular_symlink_cycle_witness :
  is_circular_symlink 4 fs_ring (abs ["d"; "t"]) = Some (Ok true).
Proof.
  apply (is_circular_symlink_cycle fs_ring 4 0 2 (abs ["d"; "t"]) (abs ["d"; "a"]));
    [reflexivity..|lia].
Defined.

(** X14.  [True] is never a false alarm: when [is_circular_symlink] returns
    [True], reading links from the input leads to a joined target path [q]
    from which reading more links leads back to [q]. *)
Theorem is_circular_symlink_true_sound (fs : filesystem) (fuel : nat) (p : path) :
  is_circular_symlink fuel fs p = Some (Ok true) ->
  exists n m q,
    follow_links fs (S n) p = Some q /\ follow_links fs (S m) q = Some q.
Proof.
  unfold is_circular_symlink.
  destruct (neither fs p) as [[|]|]; [done| |done].
  destruct (is_symlink fs p) as [[|]|]; [|done|done].
  intros (n & q & Hq & [Hin|(i & Hi & Hiq)])%walk_true; [set_solver|].
  exists i, (n - i - 1), q. split; [done|].
  replace (S n) with (S i + S (n - i - 1)) in Hq by lia.
  by rewrite follow_links_add, Hiq in Hq.
Qed.

Lemma is_circular_symlink_true_sound_witness :
  exists n m q,
    follow_links fs_ring (S n) (abs ["d"; "t"]) = Some q /\
    follow_links fs_ring (S m) q = Some q.
Proof. apply (is_circular_symlink_true_sound fs_ring 4). reflexivity. Defined.

(** X15.  [False] means the chain ends: when [is_circular_symlink] returns
    [False], reading links from the input leads to a path that is not a
    link. *)
Theorem is_circular_symlink_false_sound (fs : filesystem) (fuel : nat) (p : path) :
  is_circular_symlink fuel fs p = Some (Ok false) ->
  exists n q, follow_links fs (S n) p = Some q /\ is_symlink fs q = Ok false.
Proof.
  unfold is_circular_symlink.
  destruct (neither fs p) as [[|]|]; [done| |done].
  destruct (is_symlink fs p) as [[|]|]; [|done|done].
  apply walk_false.
Qed.

Lemma is_circular_symlink_false_sound_witness :
  exists n q,
    follow_links fs_chain (S n) (abs ["d"; "a"]) = Some q /\
    is_symlink fs_chain q = Ok false.
Proof. apply (is_circular_symlink_false_sound fs_chain 2). reflexivity. Defined.

(** X16.  The exceptions of [is_circular_symlink].  When it raises, it is
    [FileNotFoundError] on an input that neither exists nor is a link,
    [RuntimeError] on an input that exists and is not a link, or the
    [OSError] that [exists()] raises on a path that is too long for the
    system, at the input (line 4) or at a joined target path that reading
    links from the input leads to (line 28).  [readlink] and [is_symlink]
    never raise in the function, so the handler of [RuntimeError] around
    [readlink] is never entered. *)
Theorem is_circular_symlink_raises (fs : filesystem) (fuel : nat) (p : path)
    (e : exn) :
  is_circular_symlink fuel fs p = Some (Raise e) ->
  (e = FileNotFoundError /\
   exists_ fs p = Ok false /\ is_symlink fs p = Ok false) \/
  (e = RuntimeError /\
   exists_ fs p = Ok true /\ is_symlink fs p = Ok false) \/
  (e = OtherOSError /\
   exists n q, follow_links fs n p = Some q /\ exists_ fs q = Raise e).
Proof.
  unfold is_circular_symlink, neither.
  destruct (exists_ fs p) as [b|e'] eqn:He.
  - destruct (is_symlink fs p) as [[|]|e'] eqn:Hs.
    + assert (match (if b then Ok false else Ok (negb true)) with
              | Ok true => Some (Raise FileNotFoundError)
              | Ok false => walk fuel fs ∅ p
              | Raise e0 => Some (Raise e0)
              end = walk fuel fs ∅ p) as -> by by destruct b.
      intros (n & q & Hq & Hraise)%walk_raises; [|by apply is_symlink_next].
      right. right. pose proof Hraise as [_ ->]%exists_raises.
      split; [done|]. by exists (S n), q.
    + destruct b; simpl; intros [= <-]; [right|]; by left.
    + apply is_symlink_raises in Hs. congruence.
  - intros [= <-]. right. right. pose proof He as [_ ->]%exists_raises.
    split; [done|]. by exists 0, p.
Qed.

Lemma is_circular_symlink_raises_witness :
  (OtherOSError = FileNotFoundError /\
   exists_ fs_long (abs ["d"; "a"]) = Ok false /\
   is_symlink fs_long (abs ["d"; "a"]) = Ok false) \/
  (OtherOSError = RuntimeError /\
   exists_ fs_long (abs ["d"; "a"]) = Ok true /\
   is_symlink fs_long (abs ["d"; "a"]) = Ok false) \/
  (OtherOSError = OtherOSError /\
   exists n q, follow_links fs_long n (abs ["d"; "a"]) = Some q /\
               exists_ fs_long q = Raise OtherOSError).
Proof. apply (is_circular_symlink_raises fs_long 0). reflexivity. Defined.

(** A set that holds all the target paths the loop can make on
    [fs_mutual], for [walk_returns_in_closed_set]. *)
Lemma walk_returns_in_closed_set_witness :
  is_Some (walk 3 fs_mutual ∅ (abs ["d"; "a"])).
Proof.
  apply (walk_returns_in_closed_set fs_mutual
           {[ abs ["d"; "a"]; abs ["d"; "b"] ]}).
  - intros q r [->%elem_of_singleton| ->%elem_of_singleton]%elem_of_union;
      intros [= <-]; set_solver.
  - intros r [= <-]. set_solver.
  - rewrite difference_empty_L, size_union, !size_singleton; [lia|].
    apply disjoint_singleton_l. by intros [=]%elem_of_singleton.
Defined.

End SymlinkSpec.

